(** * wg-meshconf: the peer database manager

    A shallow embedding of [wg_meshconf/database_manager.py] and the
    properties of its registry storage, PSK assignment, initializer and
    configuration generator.

    Layout: Python values and the builtins the program calls ([Py]); the
    part of [ipaddress] the generator relies on ([Ip]); the external
    collaborators; the methods of [DatabaseManager] in source order;
    then the lemmas. *)

From stdpp Require Import gmap strings list fin_maps.
From Stdlib Require Import Ascii ZArith DecimalString DecimalZ DecimalN.

Local Open Scope string_scope.

(* ================================================================== *)
(** ** Python values and builtins *)
(* ================================================================== *)

Module Py.

(** The values a peer attribute can hold: [None], [str], [int], [bool]
    and a list of strings. *)
Inductive value : Type :=
  | VNone
  | VStr (s : string)
  | VInt (z : Z)
  | VBool (b : bool)
  | VList (l : list string).

#[global] Instance value_eq_dec : EqDecision value.
Proof. solve_decision. Defined.

(** [x is not None] *)
Definition is_not_None (v : value) : bool :=
  match v with VNone => false | _ => true end.

(** Truthiness, as tested by [if x:]. *)
Definition truthy (v : value) : bool :=
  match v with
  | VNone => false
  | VStr s => negb (String.eqb s "")
  | VInt z => negb (Z.eqb z 0)
  | VBool b => b
  | VList l => negb (bool_decide (l = []))
  end.

(** *** Characters *)

Definition is_digit (c : ascii) : bool :=
  let n := nat_of_ascii c in (48 <=? n)%nat && (n <=? 57)%nat.

(** The ASCII code points that [str.isspace] accepts. *)
Definition is_space (c : ascii) : bool :=
  let n := nat_of_ascii c in
  ((9 <=? n)%nat && (n <=? 13)%nat) || ((28 <=? n)%nat && (n <=? 32)%nat).

Definition lower_char (c : ascii) : ascii :=
  let n := nat_of_ascii c in
  if (65 <=? n)%nat && (n <=? 90)%nat then ascii_of_nat (n + 32) else c.

(** *** Strings *)

Fixpoint string_forallb (f : ascii → bool) (s : string) : bool :=
  match s with
  | "" => true
  | String c r => f c && string_forallb f r
  end.

Definition all_digits (s : string) : bool := string_forallb is_digit s.

(** [sep not in s] *)
Definition no_char (sep : ascii) (s : string) : bool :=
  string_forallb (λ c, negb (Ascii.eqb c sep)) s.

(** [s.lower()], on the ASCII letters. *)
Fixpoint lower (s : string) : string :=
  match s with
  | "" => ""
  | String c r => String (lower_char c) (lower r)
  end.

(** [s.split(sep)] for a one-character separator: never the empty
    list, [''.split(',')] is [['']]. *)
Fixpoint split (sep : ascii) (s : string) : list string :=
  match s with
  | "" => [""]
  | String c r =>
      if Ascii.eqb c sep then "" :: split sep r
      else match split sep r with
           | h :: t => String c h :: t
           | [] => [String c ""]
           end
  end.

(** [sep.join(l)] *)
Definition join (sep : string) (l : list string) : string :=
  String.concat sep l.

(** Iterating a string yields its characters as one-character strings. *)
Fixpoint chars (s : string) : list string :=
  match s with
  | "" => []
  | String c r => String c "" :: chars r
  end.

Fixpoint lstrip (s : string) : string :=
  match s with
  | "" => ""
  | String c r => if is_space c then lstrip r else s
  end.

Fixpoint rstrip (s : string) : string :=
  match s with
  | "" => ""
  | String c r =>
      match rstrip r with
      | "" => if is_space c then "" else String c ""
      | r' => String c r'
      end
  end.

Definition strip (s : string) : string := rstrip (lstrip s).

(** *** Integers *)

(** [str(z)] for an [int]. *)
Definition str_of_int (z : Z) : string :=
  NilZero.string_of_int (Z.to_int z).

(** The digit part of an integer literal: decimal digits, single
    underscores allowed between two digits.  Returns the digits with
    the underscores removed. *)
Fixpoint digit_group (after_digit : bool) (s : string) : option string :=
  match s with
  | "" => if after_digit then Some "" else None
  | String c r =>
      if is_digit c then String c <$> digit_group true r
      else if Ascii.eqb c "_" && after_digit then digit_group false r
      else None
  end.

Definition unsigned_of_str (s : string) : option Z :=
  d ← digit_group false s;
  Z.of_uint <$> NilEmpty.uint_of_string d.

(** [int(s)] in base ten: surrounding whitespace, an optional sign, then
    the digits.  [None] stands for [ValueError].  Text with characters
    outside ASCII is rejected here (the interpreter also reads other
    scripts' decimal digits). *)
Definition int_of_str (s : string) : option Z :=
  match strip s with
  | String "+" r => unsigned_of_str r
  | String "-" r => Z.opp <$> unsigned_of_str r
  | r => unsigned_of_str r
  end.

(** [str(v)] and ["{}".format(v)] for the scalar values.  The [repr] of a
    list is not modelled: no list-typed attribute is ever formatted by
    the program, so [None] is returned for it. *)
Definition str (v : value) : option string :=
  match v with
  | VNone => Some "None"
  | VStr s => Some s
  | VInt z => Some (str_of_int z)
  | VBool b => Some (if b then "True" else "False")
  | VList _ => None
  end.

(** The strings produced by iterating [v]; [None] is [TypeError]
    (the value is not iterable). *)
Definition iter_strs (v : value) : option (list string) :=
  match v with
  | VList l => Some l
  | VStr s => Some (chars s)
  | _ => None
  end.

(** *** Lists and ordered dictionaries *)

(** [l.pop()]: the last element and the remaining list. *)
Definition pop {A} (l : list A) : option (A * list A) :=
  match reverse l with
  | [] => None
  | x :: r => Some (x, reverse r)
  end.

(** [sum(range(n))] *)
Fixpoint sum_range (n : nat) : nat :=
  match n with
  | O => O
  | S k => sum_range k + k
  end.

(** [itertools.combinations(l, 2)] *)
Fixpoint combinations {A} (l : list A) : list (A * A) :=
  match l with
  | [] => []
  | x :: t => (pair x <$> t) ++ combinations t
  end.

(** A [dict] keeps its keys in insertion order: assigning to a key that
    is present replaces the value in place, a new key goes last. *)
Fixpoint dict_set {K V} `{EqDecision K} (k : K) (v : V) (d : list (K * V))
  : list (K * V) :=
  match d with
  | [] => [(k, v)]
  | (k', v') :: r =>
      if decide (k' = k) then (k, v) :: r else (k', v') :: dict_set k v r
  end.

Fixpoint dict_get {K V} `{EqDecision K} (k : K) (d : list (K * V)) : option V :=
  match d with
  | [] => None
  | (k', v') :: r => if decide (k' = k) then Some v' else dict_get k r
  end.

End Py.
Export Py.


(* ================================================================== *)
(** ** The [ipaddress] module *)
(* ================================================================== *)

Module Ip.

(** A non-empty run of ASCII decimal digits. *)
Definition decimal (s : string) : option Z :=
  match s with
  | "" => None
  | _ => Z.of_uint <$> NilEmpty.uint_of_string s
  end.

(** One octet of a dotted quad: one to three digits, no leading zero,
    at most 255. *)
Definition octet (s : string) : option Z :=
  match s with
  | String "0" (String _ _) => None
  | _ =>
      if (String.length s <=? 3)%nat then
        n ← decimal s; if (n <=? 255)%Z then Some n else None
      else None
  end.

(** The 32-bit integer of a dotted quad. *)
Definition address (s : string) : option Z :=
  match split "." s with
  | [a; b; c; d] =>
      a ← octet a; b ← octet b; c ← octet c; d ← octet d;
      Some (Z.lor (Z.shiftl a 24) (Z.lor (Z.shiftl b 16) (Z.lor (Z.shiftl c 8) d)))
  | _ => None
  end.

Definition prefixlen (s : string) : option Z :=
  n ← decimal s; if (n <=? 32)%Z then Some n else None.

Definition ALL_ONES : Z := 2 ^ 32 - 1.

(** [_ip_int_from_prefix] *)
Definition netmask (n : Z) : Z := Z.lxor ALL_ONES (Z.shiftr ALL_ONES n).

(** [IPv4Network(s, strict=False)] for the notation [a.b.c.d] or
    [a.b.c.d/len]: the network address (the address with the host bits
    masked away) and the prefix length. *)
Definition ipv4_network (s : string) : option (Z * Z) :=
  match split "/" s with
  | [a] => addr ← address a; Some (Z.land addr (netmask 32), 32%Z)
  | [a; m] =>
      addr ← address a; n ← prefixlen m; Some (Z.land addr (netmask n), n)
  | _ => None
  end.

Definition byte_at (a : Z) (i : Z) : Z := Z.land (Z.shiftr a (8 * i)) 255.

Definition str_of_address (a : Z) : string :=
  join "." (str_of_int <$> [byte_at a 3; byte_at a 2; byte_at a 1; byte_at a 0]).

Definition str_of_network (n : Z * Z) : string :=
  str_of_address n.1 +:+ "/" +:+ str_of_int n.2.

End Ip.

(* ================================================================== *)
(** ** External collaborators *)
(* ================================================================== *)

(** What the program obtains from outside the module.
    - [genkey n] is the key returned by the [n]-th call of
      [WireGuard.genkey] in a run; the number of calls made so far is
      threaded through the functions below.
    - [pubkey] is [WireGuard.pubkey]; [None] when it raises.
    - [ip_network_other] is [str(ipaddress.ip_network(s, strict=False))]
      on the notations [Ip.ipv4_network] does not cover (a dotted netmask
      or hostmask after the slash, IPv6); [None] is [ValueError]. *)
Record Env := {
  genkey : nat → string;
  pubkey : value → option string;
  ip_network_other : string → option string;
}.

(** [str(ipaddress.ip_network(s, strict=False))] *)
Definition ip_network (env : Env) (s : string) : option string :=
  match Ip.ipv4_network s with
  | Some n => Some (Ip.str_of_network n)
  | None => ip_network_other env s
  end.

(* ================================================================== *)
(** ** Module constants *)
(* ================================================================== *)

Definition INTERFACE_ATTRIBUTES : list string :=
  ["Address"; "ListenPort"; "FwMark"; "PrivateKey"; "DNS"; "MTU"; "Table";
   "PreUp"; "PostUp"; "PreDown"; "PostDown"; "SaveConfig"].

Definition INTERFACE_OPTIONAL_ATTRIBUTES : list string :=
  ["ListenPort"; "FwMark"; "DNS"; "MTU"; "Table";
   "PreUp"; "PostUp"; "PreDown"; "PostDown"; "SaveConfig"].

Definition PEER_ATTRIBUTES : list string :=
  ["PublicKey"; "PresharedKeys"; "AllowedIPs"; "Endpoint"; "PersistentKeepalive"].

Inductive ktype : Type := TStr | TList | TInt | TBool.

#[global] Instance ktype_eq_dec : EqDecision ktype.
Proof. solve_decision. Defined.

Definition KEY_TYPE : list (string * ktype) :=
  [("Name", TStr); ("Address", TList); ("Endpoint", TStr);
   ("AllowedIPs", TList); ("ListenPort", TInt);
   ("PersistentKeepalive", TInt); ("FwMark", TStr); ("PrivateKey", TStr);
   ("PresharedKeys", TStr); ("DNS", TStr); ("MTU", TInt); ("Table", TStr);
   ("PreUp", TStr); ("PostUp", TStr); ("PreDown", TStr); ("PostDown", TStr);
   ("SaveConfig", TBool)].

(** [KEY_TYPE.keys()], the header of the database file. *)
Definition fieldnames : list string := KEY_TYPE.*1.

(* ================================================================== *)
(** ** The registry and its storage *)
(* ================================================================== *)

(** One peer: the dictionary of its attributes. *)
Abbreviation peer := (gmap string value) (only parsing).

(** [database["peers"]]: peers by name, in insertion order.  A name is
    the value of the [Name] cell, a string or [None]. *)
Abbreviation registry := (list (value * gmap string value)) (only parsing).

(** The database file as [csv] presents it: the data rows below the
    header line, each the list of its cells.  [None] is a path at which
    there is no file. *)
Abbreviation row := (list string) (only parsing).
Abbreviation table := (list (list string)) (only parsing).
Abbreviation storage := (option (list (list string))) (only parsing).

(** [d.get(k)] on a peer *)
Definition get (p : peer) (k : string) : value := default VNone (p !! k).

(* ================================================================== *)
(** ** [DatabaseManager] *)
(* ================================================================== *)

(** *** [read_database] *)

(** The coercion of one cell, by the declared type of its column.
    [None] is the [ValueError] of [int]. *)
Definition read_cell (ty : ktype) (c : string) : option value :=
  if String.eqb c "" then Some VNone
  else match ty with
       | TList => Some (VList (split "," c))
       | TInt => VInt <$> int_of_str c
       | TBool => Some (VBool (String.eqb (lower c) "true"))
       | TStr => Some (VStr c)
       end.

(** One row of [csv.DictReader]: the cells keyed by the header, coerced,
    and the [Name] popped off as the registry key.  A row with too few
    cells leaves [SaveConfig] at [None], on which [.lower()] raises; one
    with too many has a key outside [KEY_TYPE]: both are errors. *)
Definition read_row (cells : row) : option (value * peer) :=
  if decide (length cells = length fieldnames) then
    vs ← mapM (λ kc : (string * ktype) * string, read_cell kc.1.2 kc.2)
              (zip KEY_TYPE cells);
    let d : peer := list_to_map (zip fieldnames vs) in
    Some (get d "Name", delete "Name" d)
  else None.

(** The loop over the rows; [DictReader] skips rows without cells. *)
Fixpoint read_rows (rows : table) (db : registry) : option registry :=
  match rows with
  | [] => Some db
  | cells :: rest =>
      if decide (cells = []) then read_rows rest db
      else
        np ← read_row cells;
        read_rows rest (dict_set np.1 np.2 db)
  end.

Definition read_database (st : storage) : option registry :=
  match st with
  | None => Some []
  | Some rows => read_rows rows []
  end.

(** *** [write_database] *)

(** What ends up in the cell for a value: lists are joined, [int] and
    [bool] (an [int] to [isinstance]) go through [str], and the writer
    prints [None] as the empty cell. *)
Definition write_cell (v : value) : string :=
  match v with
  | VNone => ""
  | VStr s => s
  | VInt z => str_of_int z
  | VBool b => if b then "True" else "False"
  | VList l => join "," l
  end.

(** One row of [csv.DictWriter]: a key outside the header raises
    [ValueError], a missing key is written as the empty cell. *)
Definition write_row (name : value) (p : peer) : option row :=
  let d : peer := <["Name" := name]> p in
  if decide (dom d ⊆ list_to_set fieldnames) then
    Some ((λ k, default "" (write_cell <$> d !! k)) <$> fieldnames)
  else None.

Definition write_database (db : registry) : option table :=
  mapM (λ np : value * peer, write_row np.1 np.2) db.

(** *** [init] *)

(** The inventory held by a [PresharedKeys] value; [None] is the
    [AttributeError] of calling [.split] on something not a string. *)
Definition psk_split (v : value) : option (list string) :=
  match v with
  | VStr s => Some (split "," s)
  | _ => None
  end.

(** The keys already present, counted over the peers whose
    [PresharedKeys] is truthy. *)
Fixpoint psk_present (db : registry) : option nat :=
  match db with
  | [] => Some 0
  | (_, p) :: rest =>
      v ← p !! "PresharedKeys";
      n ← (if truthy v then length <$> psk_split v else Some 0);
      m ← psk_present rest;
      Some (n + m)
  end.

(** [for _ in range(n): if additional_keys: presharedkeys.append(additional_keys.pop())] *)
Fixpoint fill_up (n : nat) (presharedkeys additional_keys : list string)
  : list string * list string :=
  match n with
  | O => (presharedkeys, additional_keys)
  | S k =>
      match pop additional_keys with
      | Some (x, rest) => fill_up k (presharedkeys ++ [x]) rest
      | None => fill_up k presharedkeys additional_keys
      end
  end.

(** The body of the [enumerate] loop for one peer.  State: the spare
    keys and the number of [genkey] calls made. *)
Definition init_peer (env : Env) (with_psk : bool) (N counter : nat)
    (p : peer) (additional_keys : list string) (calls : nat)
  : option (peer * list string * nat) :=
  let p1 : peer :=
    if is_not_None (get p "ListenPort") then p
    else <["ListenPort" := VInt 51820]> p in
  let '(p2, calls') :=
    if is_not_None (get p1 "PrivateKey") then (p1, calls)
    else (<["PrivateKey" := VStr (genkey env calls)]> p1, S calls) in
  if with_psk then
    let peer_needed : Z := (Z.of_nat N - 1 - Z.of_nat counter)%Z in
    v ← p2 !! "PresharedKeys";
    presharedkeys ← (if is_not_None v then psk_split v else Some []);
    let '(keys, rest) :=
      fill_up (Z.to_nat (peer_needed - Z.of_nat (length presharedkeys))%Z)
              presharedkeys additional_keys in
    Some (<["PresharedKeys" := VList keys]> p2, rest, calls')
  else Some (p2, additional_keys, calls').

Fixpoint init_peers (env : Env) (with_psk : bool) (N counter : nat)
    (db : registry) (additional_keys : list string) (calls : nat)
  : option (registry * nat) :=
  match db with
  | [] => Some ([], calls)
  | (name, p) :: rest =>
      r ← init_peer env with_psk N counter p additional_keys calls;
      let '(p', additional', calls') := r in
      t ← init_peers env with_psk N (S counter) rest additional' calls';
      Some ((name, p') :: t.1, t.2)
  end.

(** The in-memory part of [init] on an existing database: the registry
    handed to [write_database] and the number of [genkey] calls.
    [None] covers [sys.exit(1)] for a peer without [Address]. *)
Definition init_database (env : Env) (with_psk : bool) (db : registry)
  : option (registry * nat) :=
  if forallb (λ np : value * peer, is_not_None (get np.2 "Address")) db then
    let N := length db in
    if with_psk then
      present ← psk_present db;
      let psk_needed : Z := (Z.of_nat (sum_range N) - Z.of_nat present)%Z in
      let additional_keys := genkey env <$> seq 0 (Z.to_nat psk_needed) in
      init_peers env true N 0 db additional_keys (Z.to_nat psk_needed)
    else init_peers env false N 0 db [] 0
  else None.

Definition init (env : Env) (with_psk : bool) (st : storage) : option storage :=
  match st with
  | None => Some (Some [])
  | Some _ =>
      db ← read_database st;
      r ← init_database env with_psk db;
      t ← write_database r.1;
      Some (Some t)
  end.

(** *** [addpeer], [updatepeer], [delpeer] *)

(** The keyword parameters of [addpeer] and [updatepeer] that carry
    attributes.  [args] below holds the values bound to them; a
    parameter that is not bound has its default, [None]. *)
Definition attribute_parameters : list string :=
  ["Address"; "Endpoint"; "AllowedIPs"; "ListenPort"; "PersistentKeepalive";
   "FwMark"; "PrivateKey"; "PresharedKeys"; "DNS"; "MTU"; "Table";
   "PreUp"; "PostUp"; "PreDown"; "PostDown"; "SaveConfig"].

(** [locals().get(key)]: [PublicKey] is not a parameter, so it is never
    found. *)
Definition locals_get (args : gmap string value) (key : string) : value :=
  if bool_decide (key ∈ attribute_parameters) then get args key else VNone.

(** [for key in INTERFACE_ATTRIBUTES + PEER_ATTRIBUTES: ...] *)
Definition assign_attributes (args : gmap string value) (p : peer) : peer :=
  foldl (λ (q : peer) key,
           if is_not_None (locals_get args key)
           then <[key := locals_get args key]> q else q)
        p (INTERFACE_ATTRIBUTES ++ PEER_ATTRIBUTES).


Definition updatepeer (st : storage) (Name : string)
    (args : gmap string value) : option storage :=
  db ← read_database st;
  match dict_get (VStr Name) db with
  | None => Some st
  | Some p =>
      t ← write_database (dict_set (VStr Name) (assign_attributes args p) db);
      Some (Some t)
  end.

Definition delpeer (st : storage) (Name : string) : option storage :=
  db ← read_database st;
  match dict_get (VStr Name) db with
  | None => Some st
  | Some _ =>
      t ← write_database (filter (λ np : value * peer, np.1 ≠ VStr Name) db);
      Some (Some t)
  end.

(** *** [calculate_psks] *)

(** A [psk_tuple]: the two peers of a combination and their key. *)
Abbreviation psk_tuple := (value * value * string)%type (only parsing).

(** [psk_keys] after the first loop: the inventories of [peers], one
    after the other.  [None] is a [KeyError] or [AttributeError]. *)
Fixpoint psk_pool (peers : list value) (db : registry) : option (list string) :=
  match peers with
  | [] => Some []
  | p :: rest =>
      q ← dict_get p db;
      v ← q !! "PresharedKeys";
      ks ← (if is_not_None v then psk_split v else Some []);
      pool ← psk_pool rest db;
      Some (ks ++ pool)%list
  end.

(** The loop over the combinations.  [psk_keys] is the reversed pool,
    [calls] the number of [genkey] calls made so far. *)
Fixpoint assign_psks (env : Env) (combinations : list (value * value))
    (psk_keys : list string) (inform calls : nat)
  : list psk_tuple * nat * nat :=
  match combinations with
  | [] => ([], inform, calls)
  | (a, b) :: rest =>
      match pop psk_keys with
      | Some (k, psk_keys') =>
          let '(ts, i, c) := assign_psks env rest psk_keys' inform calls in
          ((a, b, k) :: ts, i, c)
      | None =>
          let '(ts, i, c) := assign_psks env rest psk_keys (S inform) (S calls) in
          ((a, b, genkey env calls) :: ts, i, c)
      end
  end.

(** Returns [psk_tuples], the count [inform] that is printed, and the
    number of [genkey] calls after the run. *)
Definition calculate_psks (env : Env) (calls : nat) (peers : list value)
    (db : registry) : option (list psk_tuple * nat * nat) :=
  pool ← psk_pool peers db;
  Some (assign_psks env (combinations peers) (reverse pool) 0 calls).

(** *** [genconfig] *)

Definition nl : string := String "010"%char "".

(** One generated file: its name, the writes of the [[Interface]]
    section, and for each [[Peer]] section the counterpart it is for and
    its writes.  The text of the file is all writes in order. *)
Record conf := {
  conf_file : string;
  conf_interface : list string;
  conf_peers : list (value * list string);
}.

Definition conf_text (c : conf) : string :=
  join "" (conf_interface c ++ concat (conf_peers c).*2)%list.

(** [x in psk_tuple] *)
Definition tuple_mem (x : value) (t : psk_tuple) : bool :=
  bool_decide (x = t.1.1) || bool_decide (x = t.1.2) || bool_decide (x = VStr t.2).

(** ["{} = {}\n".format(key, p[key])] when [p.get(key)] is not [None]. *)
Definition optional_line (p : peer) (key : string) : option (list string) :=
  if is_not_None (get p key) then
    s ← str (get p key); Some [key +:+ " = " +:+ s +:+ nl]
  else Some [].

(** The [Endpoint] line of the section for a counterpart with
    attributes [q]: written when [q] has an endpoint, with whatever
    [ListenPort] holds after the colon. *)
Definition endpoint_line (q : gmap string value) : option (list string) :=
  if is_not_None (get q "Endpoint") then
    e ← q !! "Endpoint";
    e ← str e;
    port ← q !! "ListenPort";
    port ← str port;
    Some ["Endpoint = " +:+ e +:+ ":" +:+ port +:+ nl]
  else Some [].

(** The [AllowedIPs] line: the normalised subnets, then the
    counterpart's own [AllowedIPs]; [None] is the [TypeError] of adding
    something that is not a list. *)
Definition allowed_ips_line (q : gmap string value) (peer_subnets : list string)
  : option (list string) :=
  if is_not_None (get q "Address") then
    if is_not_None (get q "AllowedIPs") then
      match get q "AllowedIPs" with
      | VList l => Some ["AllowedIPs = " +:+ join ", " (peer_subnets ++ l) +:+ nl]
      | _ => None
      end
    else Some ["AllowedIPs = " +:+ join ", " peer_subnets +:+ nl]
  else Some [].

(** The [PresharedKey] lines: one for every tuple that contains both
    the owner of the document and the counterpart. *)
Definition psk_lines (psk_tuples : list psk_tuple) (with_psk : bool)
    (peer p : value) : list string :=
  if with_psk then
    (λ t : psk_tuple, "PresharedKey = " +:+ t.2 +:+ nl)
      <$> filter (λ t, tuple_mem p t = true)
                 (filter (λ t, tuple_mem peer t = true) psk_tuples)
  else [].

(** The [[Peer]] section for counterpart [p] in the document of [peer]
    (whose attributes are [me]): no section when neither side has an
    [Endpoint]. *)
Definition peer_section (env : Env) (db : registry) (psk_tuples : list psk_tuple)
    (with_psk : bool) (peer : value) (me : gmap string value) (p : value)
  : option (list (value * list string)) :=
  q ← dict_get p db;
  let peer_endpoint := get q "Endpoint" in
  let my_endpoint := get me "Endpoint" in
  address ← q !! "Address";
  subnets ← iter_strs address;
  peer_subnets ← mapM (ip_network env) subnets;
  if is_not_None peer_endpoint || is_not_None my_endpoint then
    name ← str p;
    privatekey ← q !! "PrivateKey";
    public ← pubkey env privatekey;
    endpoint ← endpoint_line q;
    allowed ← allowed_ips_line q peer_subnets;
    keepalive ← optional_line me "PersistentKeepalive";
    Some [(p, ([nl +:+ "[Peer]" +:+ nl; "# Name: " +:+ name +:+ nl;
                "PublicKey = " +:+ public +:+ nl]
               ++ endpoint ++ allowed ++ keepalive
               ++ psk_lines psk_tuples with_psk peer p)%list)]
  else Some [].

(** The body of [for peer in peers]. *)
Definition document (env : Env) (db : registry) (psk_tuples : list psk_tuple)
    (with_psk : bool) (peer : value) : option conf :=
  name ← str peer;
  me ← dict_get peer db;
  address ← me !! "Address";
  addresses ← iter_strs address;
  privatekey ← me !! "PrivateKey";
  privatekey ← str privatekey;
  optional ← mapM (optional_line me) INTERFACE_OPTIONAL_ATTRIBUTES;
  sections ← mapM (peer_section env db psk_tuples with_psk peer me)
                  (filter (λ i, i ≠ peer) db.*1);
  Some {| conf_file := name +:+ ".conf";
          conf_interface :=
            (["[Interface]" +:+ nl; "# Name: " +:+ name +:+ nl;
              "Address = " +:+ join ", " addresses +:+ nl;
              "PrivateKey = " +:+ privatekey +:+ nl] ++ concat optional)%list;
          conf_peers := concat sections |}.

(** The files written, in order.  The handling of the output directory
    is left out. *)
Definition genconfig (env : Env) (st : storage) (Name : option string)
    (with_psk : bool) : option (list conf) :=
  db ← read_database st;
  let peers := match Name with Some n => [VStr n] | None => db.*1 end in
  psk_tuples ←
    (if with_psk then (λ r, r.1.1) <$> calculate_psks env 0 peers db
     else Some []);
  mapM (document env db psk_tuples with_psk) peers.


(* ================================================================== *)
(** ** Well-formed registries and canonical tables *)
(* ================================================================== *)

(** Every column but [Name], with its type. *)
Definition attributes : list (string * ktype) := tail KEY_TYPE.

(** A value that a cell of type [ty] can stand for: [None], or a value
    of the type that is not written as the empty cell and, for a list,
    has no comma inside an element. *)
Definition wf_value (ty : ktype) (v : value) : bool :=
  match v, ty with
  | VNone, _ => true
  | VStr s, TStr => negb (String.eqb s "")
  | VList l, TList =>
      negb (bool_decide (l = [])) && negb (bool_decide (l = [""]))
      && forallb (no_char ",") l
  | VInt _, TInt => true
  | VBool _, TBool => true
  | _, _ => false
  end.

(** A peer as [read_database] builds it: exactly the attribute columns
    as keys, each holding a well-formed value of the column's type. *)
Definition wf_peer (p : gmap string value) : bool :=
  bool_decide (dom p = list_to_set attributes.*1)
  && forallb (λ kt : string * ktype, wf_value kt.2 (get p kt.1)) attributes.

Definition wf_registry (R : list (value * gmap string value)) : bool :=
  bool_decide (NoDup R.*1)
  && forallb (λ np : value * gmap string value,
                wf_value TStr np.1 && wf_peer np.2) R.

(** A cell in the spelling [write_database] uses: an integer as [str]
    prints it (no [+], leading zero, underscore or blank), a boolean as
    [True] or [False]. *)
Definition canonical_cell (ty : ktype) (c : string) : bool :=
  match ty with
  | TInt =>
      String.eqb c "" ||
      match int_of_str c with
      | Some z => String.eqb (str_of_int z) c
      | None => false
      end
  | TBool => String.eqb c "" || String.eqb c "True" || String.eqb c "False"
  | _ => true
  end.

Definition canonical_row (cells : list string) : bool :=
  bool_decide (length cells = length fieldnames)
  && forallb (λ kc : (string * ktype) * string, canonical_cell kc.1.2 kc.2)
             (zip KEY_TYPE cells).

(** The [Name] cell of a row. *)
Definition row_name (cells : list string) : string := default "" (head cells).

Definition canonical_table (x : list (list string)) : bool :=
  forallb canonical_row x && bool_decide (NoDup (row_name <$> x)).



(** The peer holding the values [vs] under the attribute columns, in
    the order of the header. *)
Definition peer_of (vs : list value) : gmap string value :=
  list_to_map (zip attributes.*1 vs).

(** A stored table in which one peer has the [SaveConfig] cell spelled
    [true]. *)
Definition lowercase_table : list (list string) :=
  [["A"; "10.0.0.1/24"; "a.example.com"; ""; "51820"; ""; ""; "privA"; "";
    ""; ""; ""; ""; ""; ""; ""; "true"]].



(* ================================================================== *)
(** ** Vocabulary for the PSK statements *)
(* ================================================================== *)

(** The inventory of a peer read from storage: the entries of its
    [PresharedKeys] cell, none when the cell is empty. *)
Definition inventory (p : gmap string value) : list string :=
  match get p "PresharedKeys" with
  | VStr s => split "," s
  | _ => []
  end.

(** The keys handed to the first [n] combinations: the pool in order,
    then the keys [genkey] returns from call number [calls] on. *)
Definition psk_supply (env : Env) (calls : nat) (pool : list string) (n : nat)
  : list string :=
  take n (pool ++ (genkey env <$> seq calls (n - length pool))).

(** Two providers that return different keys, standing for two runs. *)
Definition env_run1 : Env :=
  {| genkey := λ n, "run1-" +:+ str_of_int (Z.of_nat n);
     pubkey := λ v, match v with VStr s => Some ("pub:" +:+ s) | _ => None end;
     ip_network_other := λ _, None |}.

Definition env_run2 : Env :=
  {| genkey := λ n, "run2-" +:+ str_of_int (Z.of_nat n);
     pubkey := λ v, match v with VStr s => Some ("pub:" +:+ s) | _ => None end;
     ip_network_other := λ _, None |}.

(** The scenario of the specification: [A] has an endpoint, [B] and [C]
    have none; [A] holds two keys. *)
Definition mesh_table : list (list string) :=
  [["A"; "10.0.0.1/24"; "a.example.com"; ""; ""; "25"; ""; "privA"; "k1,k2";
    ""; ""; ""; ""; ""; ""; ""; ""];
   ["B"; "10.0.0.2/24"; ""; "192.168.0.0/16"; "51820"; ""; ""; "privB"; "";
    ""; ""; ""; ""; ""; ""; ""; ""];
   ["C"; "10.0.0.3/24"; ""; ""; ""; ""; ""; "privC"; ""; ""; ""; ""; ""; "";
    ""; ""; ""]].

(** Two peers without any key. *)
Definition bare_table : list (list string) :=
  [["A"; "10.0.0.1/24"; "a.example.com"; ""; ""; ""; ""; "privA"; "";
    ""; ""; ""; ""; ""; ""; ""; ""];
   ["B"; "10.0.0.2/24"; ""; ""; ""; ""; ""; "privB"; "";
    ""; ""; ""; ""; ""; ""; ""; ""]].

(** The pooled inventory of a registry: the inventories of its peers,
    one after the other in enumeration order. *)
Definition pool_of (db : list (value * gmap string value)) : list string :=
  concat (inventory <$> db.*2).

(** Three peers whose inventories cover all three pairs. *)
Definition full_table : list (list string) :=
  [["A"; "10.0.0.1/24"; "a.example.com"; ""; "51820"; ""; ""; "privA"; "k1,k2";
    ""; ""; ""; ""; ""; ""; ""; ""];
   ["B"; "10.0.0.2/24"; ""; ""; "51820"; ""; ""; "privB"; "k3";
    ""; ""; ""; ""; ""; ""; ""; ""];
   ["C"; "10.0.0.3/24"; ""; ""; "51820"; ""; ""; "privC"; ""; ""; ""; ""; ""; "";
    ""; ""; ""]].

(** The registries these tables load as. *)
Definition mesh_registry : list (value * gmap string value) :=
  default [] (read_database (Some mesh_table)).

Definition full_registry : list (value * gmap string value) :=
  default [] (read_database (Some full_table)).

Definition bare_registry : list (value * gmap string value) :=
  default [] (read_database (Some bare_table)).

(* ================================================================== *)
(** ** Vocabulary for the initializer statements *)
(* ================================================================== *)






(** An update of [A]'s endpoint with the empty string. *)
Definition clear_endpoint : gmap string value := {["Endpoint" := VStr ""]}.

(** The value of attribute [key] of peer [name] as the database file
    holds it. *)
Definition stored_attribute (st : option (list (list string)))
    (name key : string) : option value :=
  db ← read_database st;
  p ← dict_get (VStr name) db;
  Some (get (p : gmap string value) key).

(** An update that supplies a new endpoint. *)
Definition new_endpoint : gmap string value :=
  {["Endpoint" := VStr "b.example.com"]}.

(* ================================================================== *)
(** ** Vocabulary for the generator statements *)
(* ================================================================== *)



(** The endpoint predicate of the reachability rule. *)
Definition connectable (a b : gmap string value) : bool :=
  is_not_None (get a "Endpoint") || is_not_None (get b "Endpoint").

(** For each document its sections, each marked with whether it has a
    [PresharedKey] line. *)
Definition psk_marks (docs : list conf) : list (list (value * bool)) :=
  (λ c, (λ sec : value * list string,
           (sec.1, existsb (String.prefix "PresharedKey = ") sec.2))
        <$> conf_peers c) <$> docs.

(* ================================================================== *)
(** ** Vocabulary for the further statements *)
(* ================================================================== *)




(** A table with a row that lacks cells and one with a port that is
    not a number. *)
Definition short_row_table : list (list string) := [["A"; "10.0.0.1/24"]].

Definition bad_port_table : list (list string) :=
  [["A"; "10.0.0.1/24"; ""; ""; "port"; ""; ""; "privA"; "";
    ""; ""; ""; ""; ""; ""; ""; ""]].


(** A table with a peer that has no [Address]. *)
Definition no_address_table : list (list string) :=
  [["A"; "10.0.0.1/24"; ""; ""; ""; ""; ""; "privA"; "";
    ""; ""; ""; ""; ""; ""; ""; ""];
   ["B"; ""; ""; ""; ""; ""; ""; ""; "";
    ""; ""; ""; ""; ""; ""; ""; ""]].

Definition no_address_registry : list (value * gmap string value) :=
  default [] (read_database (Some no_address_table)).

(** What [init] makes of the peer at position [k] of a registry of [N]
    peers, with the spare keys [add] and the generator at [lo]..[hi]. *)
Definition initialised (env : Env) (with_psk : bool) (N : nat)
    (add : list string) (lo hi k : nat)
    (p p' : gmap string value) : Prop :=
  get p' "ListenPort"
  = (if is_not_None (get p "ListenPort") then get p "ListenPort" else VInt 51820)
  ∧ (if is_not_None (get p "PrivateKey")
     then get p' "PrivateKey" = get p "PrivateKey"
     else ∃ j, (lo ≤ j < hi)%nat ∧ get p' "PrivateKey" = VStr (genkey env j))
  ∧ (∀ a, a ≠ "ListenPort" → a ≠ "PrivateKey" → a ≠ "PresharedKeys" →
          p' !! a = p !! a)
  ∧ (if with_psk
     then ∃ extra, p' !! "PresharedKeys" = Some (VList ((inventory p ++ extra)%list))
                   ∧ (length extra ≤ (N - 1 - k - length (inventory p))%nat)%nat
                   ∧ extra ⊆ add
     else p' !! "PresharedKeys" = p !! "PresharedKeys").


(* ================================================================== *)
(** ** [showpeers] *)
(* ================================================================== *)

(** The loop over the attribute keys for one peer: a key whose value is
    not [None] and that is not yet a column is appended. *)
Definition add_fields (p : gmap string value) (field_names : list string)
  : list string :=
  foldl (λ (fs : list string) key,
           if is_not_None (get p key) && negb (bool_decide (key ∈ fs))
           then (fs ++ [key])%list else fs)
        field_names (INTERFACE_ATTRIBUTES ++ PEER_ATTRIBUTES)%list.

(** [field_names] after the mode has been taken into account. *)
Definition show_fields (verbose : bool) (ps : list (gmap string value))
  : list string :=
  if verbose then (["Name"] ++ (INTERFACE_ATTRIBUTES ++ PEER_ATTRIBUTES))%list
  else foldl (λ fs p, add_fields p fs) ["Name"] ps.

(** One cell: [",".join(v)] for a list, [str(v)] for anything else. *)
Definition show_cell (v : value) : option string :=
  match v with
  | VList l => Some (join "," l)
  | _ => str v
  end.

(** The arguments of one [table.add_row]: the peer's key and the cells
    of the columns other than [Name]. *)
Definition show_row (field_names : list string) (name : value)
    (p : gmap string value) : option (value * list string) :=
  cells ← mapM (λ k, show_cell (get p k))
               (filter (λ i : string, i ≠ "Name") field_names);
  Some (name, cells).

(** The table handed to the console for the peers listed: its columns
    and its rows.  A listed peer that is not in the registry is
    [KeyError]. *)
Definition show_table (verbose : bool) (db : list (value * gmap string value))
    (peers : list value) : option (list string * list (value * list string)) :=
  ps ← mapM (λ n, dict_get n db) peers;
  let field_names := show_fields verbose ps in
  rows ← mapM (λ np : value * gmap string value, show_row field_names np.1 np.2)
              (zip peers ps);
  Some (field_names, rows).

(** [showpeers]: [Some None] when only the message about an unknown
    peer is printed, [Some (Some table)] when a table is. *)
Definition showpeers (st : option (list (list string))) (Name : option string)
    (verbose : bool) : option (option (list string * list (value * list string))) :=
  db ← read_database st;
  match Name with
  | Some n =>
      match dict_get (VStr n) db with
      | None => Some None
      | Some _ => Some <$> show_table verbose db [VStr n]
      end
  | None => Some <$> show_table verbose db db.*1
  end.
(* ================================================================== *)
(** ** Facts about the builtins *)
(* ================================================================== *)

#[local] Open Scope list_scope.
#[local] Open Scope nat_scope.

Section strings.

Example split_ex : split "," "a,,b" = ["a"; ""; "b"] /\ split "," "" = [""].
Proof. split; reflexivity. Qed.
Example int_ex : int_of_str " +1_000 " = Some 1000%Z /\ int_of_str "-007" = Some (-7)%Z
  /\ int_of_str "1__0" = None /\ int_of_str "" = None /\ int_of_str "5_" = None.
Proof. repeat split; reflexivity. Qed.
Example str_ex : str_of_int (-120) = "-120" /\ str_of_int 0 = "0".
Proof. split; reflexivity. Qed.

Lemma split_nonempty sep s : split sep s ≠ [].
Proof. destruct s as [|c r]; simpl; [done|]. destruct (Ascii.eqb c sep); [done|]. by destruct (split sep r). Qed.

Lemma join_cons sep x y l : join sep (x :: y :: l) = x +:+ sep +:+ join sep (y :: l).
Proof. reflexivity. Qed.

(** [sep.join(s.split(sep)) == s] *)
Lemma join_split sep s : join (String sep "") (split sep s) = s.
Proof.
  induction s as [|c r IH]; simpl; [done|].
  destruct (Ascii.eqb_spec c sep) as [->|Hne].
  - destruct (split sep r) as [|h t] eqn:E; [by apply split_nonempty in E|].
    rewrite join_cons, IH. reflexivity.
  - destruct (split sep r) as [|h t] eqn:E; [by apply split_nonempty in E|].
    destruct t as [|h' t]; simpl in *; by rewrite <- IH.
Qed.

Lemma split_no_char sep s : no_char sep s = true → split sep s = [s].
Proof.
  induction s as [|c r IH]; simpl; [done|].
  intros [Hc Hr]%andb_true_iff. apply negb_true_iff in Hc. rewrite Hc.
  by rewrite (IH Hr).
Qed.

Lemma split_app sep x s :
  no_char sep x = true → split sep (x +:+ String sep s) = x :: split sep s.
Proof.
  induction x as [|c r IH]; simpl.
  - intros _. by rewrite Ascii.eqb_refl.
  - intros [Hc Hr]%andb_true_iff. apply negb_true_iff in Hc. rewrite Hc.
    by rewrite (IH Hr).
Qed.

(** [sep.join(l).split(sep) == l] when no element contains [sep]. *)
Lemma split_join sep l :
  l ≠ [] → Forall (λ x, no_char sep x = true) l →
  split sep (join (String sep "") l) = l.
Proof.
  intros Hne Hl. induction Hl as [|x l Hx Hl IH]; [done|].
  destruct l as [|y l]; [by apply split_no_char|].
  rewrite join_cons.
  change (split sep (x +:+ String sep (join (String sep "") (y :: l))) = x :: y :: l).
  rewrite split_app by done. f_equal. by apply IH.
Qed.

End strings.

Section integers.

#[local] Arguments is_digit : simpl never.
#[local] Arguments is_space : simpl never.

Lemma all_digits_cons c r :
  all_digits (String c r) = is_digit c && all_digits r.
Proof. reflexivity. Qed.

Lemma digits_of_uint d : all_digits (NilEmpty.string_of_uint d) = true.
Proof. induction d; simpl; done. Qed.

Lemma digit_not_space c : is_digit c = true → is_space c = false.
Proof. destruct c as [[] [] [] [] [] [] [] []]; cbv; done. Qed.

Lemma lstrip_id c r : is_space c = false → lstrip (String c r) = String c r.
Proof. simpl. by intros ->. Qed.

Lemma rstrip_no_space s :
  string_forallb (λ c, negb (is_space c)) s = true → rstrip s = s.
Proof.
  induction s as [|c r IH]; [done|].
  cbn [string_forallb rstrip].
  intros [Hc Hr]%andb_true_iff. rewrite (IH Hr).
  destruct r; [|done]. apply negb_true_iff in Hc. by rewrite Hc.
Qed.

Lemma digits_no_space s :
  all_digits s = true → string_forallb (λ c, negb (is_space c)) s = true.
Proof.
  induction s as [|c r IH]; [done|]. rewrite all_digits_cons.
  intros [Hc Hr]%andb_true_iff. cbn [string_forallb].
  by rewrite (digit_not_space c Hc), (IH Hr).
Qed.

Lemma rstrip_digits s : all_digits s = true → rstrip s = s.
Proof. intros. by apply rstrip_no_space, digits_no_space. Qed.

Lemma digit_group_digits s b :
  all_digits s = true → s ≠ "" ∨ b = true → digit_group b s = Some s.
Proof.
  revert b. induction s as [|c r IH]; simpl; intros b.
  - intros _ [?| ->]; done.
  - intros [Hc Hr]%andb_true_iff _. rewrite Hc.
    rewrite (IH true Hr); [done | by right].
Qed.

Lemma unsigned_of_uint d :
  d ≠ Decimal.Nil →
  unsigned_of_str (NilEmpty.string_of_uint d) = Some (Z.of_uint d).
Proof.
  intros Hd. unfold unsigned_of_str.
  rewrite digit_group_digits; [| apply digits_of_uint |].
  - simpl. by rewrite NilEmpty.usu.
  - left. by destruct d.
Qed.

Lemma int_of_str_digits c r :
  is_digit c = true → all_digits r = true →
  int_of_str (String c r) = unsigned_of_str (String c r).
Proof.
  intros Hc Hr. unfold int_of_str, strip.
  rewrite lstrip_id by by apply digit_not_space.
  rewrite rstrip_digits by (by rewrite all_digits_cons, Hc, Hr).
  destruct c as [[] [] [] [] [] [] [] []]; try discriminate Hc; reflexivity.
Qed.

Lemma int_of_str_minus c r :
  is_digit c = true → all_digits r = true →
  int_of_str (String "-" (String c r)) = Z.opp <$> unsigned_of_str (String c r).
Proof.
  intros Hc Hr. unfold int_of_str, strip.
  rewrite lstrip_id by done.
  rewrite rstrip_no_space; [reflexivity|].
  change (string_forallb (λ c, negb (is_space c)) (String c r) = true).
  apply digits_no_space. by rewrite all_digits_cons, Hc, Hr.
Qed.

Lemma int_of_uint d :
  d ≠ Decimal.Nil →
  int_of_str (NilEmpty.string_of_uint d) = Some (Z.of_uint d) ∧
  int_of_str (String "-" (NilEmpty.string_of_uint d)) = Some (- Z.of_uint d)%Z.
Proof.
  intros Hd. pose proof (digits_of_uint d) as Hall.
  pose proof (unsigned_of_uint d Hd) as Hu.
  destruct (NilEmpty.string_of_uint d) as [|c r] eqn:E; [by destruct d|].
  rewrite all_digits_cons in Hall. apply andb_true_iff in Hall as [Hc Hr].
  rewrite int_of_str_digits, int_of_str_minus, Hu by done. done.
Qed.

(** [int(str(z)) == z] *)
Lemma int_of_str_of_int z : int_of_str (str_of_int z) = Some z.
Proof.
  destruct z as [|p|p]; [reflexivity| |].
  - unfold str_of_int. simpl.
    pose proof (DecimalPos.Unsigned.to_uint_nonnil p) as Hn.
    assert (NilZero.string_of_uint (Pos.to_uint p)
            = NilEmpty.string_of_uint (Pos.to_uint p)) as ->
      by by destruct (Pos.to_uint p).
    rewrite (proj1 (int_of_uint _ Hn)). unfold Z.of_uint.
    by rewrite DecimalPos.Unsigned.of_to.
  - unfold str_of_int. simpl.
    pose proof (DecimalPos.Unsigned.to_uint_nonnil p) as Hn.
    assert (NilZero.string_of_uint (Pos.to_uint p)
            = NilEmpty.string_of_uint (Pos.to_uint p)) as ->
      by by destruct (Pos.to_uint p).
    rewrite (proj2 (int_of_uint _ Hn)). unfold Z.of_uint.
    by rewrite DecimalPos.Unsigned.of_to.
Qed.

Lemma str_of_int_nonempty z : str_of_int z ≠ "".
Proof.
  destruct z as [|p|p]; [done| |done].
  unfold str_of_int. simpl.
  pose proof (DecimalPos.Unsigned.to_uint_nonnil p).
  by destruct (Pos.to_uint p).
Qed.

End integers.

Section cells.

Lemma join_empty c l : join (String c "") l = "" → l = [] ∨ l = [""].
Proof.
  destruct l as [|x [|y l]]; [by left| |].
  - simpl. intros ->. by right.
  - rewrite join_cons. by destruct x.
Qed.

Lemma no_char_split sep s : Forall (λ x, no_char sep x = true) (split sep s).
Proof.
  induction s as [|c r IH]; simpl; [by repeat constructor|].
  destruct (Ascii.eqb c sep) eqn:E; [by constructor|].
  destruct (split sep r) as [|h t]; [by repeat constructor; unfold no_char; simpl; rewrite E|].
  inversion IH; subst. constructor; [|done].
  unfold no_char in *. simpl. by rewrite E.
Qed.

Lemma eqb_empty s : String.eqb s "" = false ↔ s ≠ "".
Proof. rewrite String.eqb_neq. done. Qed.

(** Reading back what [write_database] wrote for a well-formed value. *)
Lemma read_write_cell ty v :
  wf_value ty v = true → read_cell ty (write_cell v) = Some v.
Proof.
  destruct v as [|s|z|b|l]; [by destruct ty|..];
    destruct ty; try done; simpl; intros Hwf.
  - apply negb_true_iff in Hwf. unfold read_cell. by rewrite Hwf.
  - unfold read_cell.
    destruct (String.eqb_spec (str_of_int z) "") as [E|_];
      [by apply str_of_int_nonempty in E|].
    by rewrite int_of_str_of_int.
  - by destruct b.
  - apply andb_true_iff in Hwf as [[H1 H2]%andb_true_iff H3].
    apply negb_true_iff, bool_decide_eq_false in H1, H2.
    unfold read_cell.
    destruct (String.eqb_spec (join "," l) "") as [E|_].
    { apply join_empty in E as [?|?]; done. }
    f_equal. f_equal. apply split_join; [done|].
    apply Forall_forall. intros x Hx. eapply forallb_forall in H3; [done|].
    by apply list_elem_of_In.
Qed.

(** Every value produced by [read_cell] is well formed. *)
Lemma read_cell_wf ty c v : read_cell ty c = Some v → wf_value ty v = true.
Proof.
  unfold read_cell. destruct (String.eqb_spec c "") as [->|Hc].
  { intros [= <-]. by destruct ty. }
  destruct ty; simpl.
  - intros [= <-]. simpl. by apply negb_true_iff, eqb_empty.
  - intros [= <-]. simpl. rewrite !andb_true_iff. split; [split|].
    + apply negb_true_iff, bool_decide_eq_false, split_nonempty.
    + apply negb_true_iff, bool_decide_eq_false. intros E.
      pose proof (join_split "," c) as J. rewrite E in J. done.
    + apply forallb_forall. intros x Hx%list_elem_of_In.
      pose proof (no_char_split "," c) as F.
      rewrite Forall_forall in F. by apply F.
  - destruct (int_of_str c); [|done]. by intros [= <-].
  - by intros [= <-].
Qed.


End cells.

(** The rows have the seventeen columns of the header, so a list of
    cells or of values of the right length is taken apart once and the
    map operations on the fixed keys are computed. *)
Ltac explode l H :=
  repeat (destruct l as [|? l]; [discriminate H|]);
  try (destruct l; [|discriminate H]).

(** Closes [l = r] by evaluating both sides in the virtual machine,
    without building the normal form of a map as a term. *)
Ltac vm_refl :=
  lazymatch goal with |- _ = ?r => vm_cast_no_check (@eq_refl _ r) end.

Section rows.

Lemma write_row_peer_of n vs :
  length vs = length attributes →
  write_row n (peer_of vs) = Some (write_cell <$> n :: vs).
Proof. intros Hlen. explode vs Hlen. vm_refl. Qed.

Lemma wf_peer_of vs :
  length vs = length attributes →
  wf_peer (peer_of vs)
  = forallb (λ kv : (string * ktype) * value, wf_value kv.1.2 kv.2)
            (zip attributes vs).
Proof. intros Hlen. explode vs Hlen. vm_refl. Qed.

(** The dictionary of a row: its [Name] and what is left without it. *)
Lemma row_dict_name v0 vs :
  length vs = length attributes →
  get (list_to_map (zip fieldnames (v0 :: vs))) "Name" = v0.
Proof. intros Hlen. explode vs Hlen. vm_refl. Qed.

Lemma row_dict_rest v0 vs :
  length vs = length attributes →
  delete "Name" (list_to_map (zip fieldnames (v0 :: vs)) : gmap string value)
  = peer_of vs.
Proof. intros Hlen. explode vs Hlen. vm_refl. Qed.

Lemma read_row_length cells np :
  read_row cells = Some np → length cells = length fieldnames.
Proof. unfold read_row. by case_decide. Qed.

(** [read_row] in terms of the coerced cells. *)
Lemma read_row_eq cells :
  length cells = length fieldnames →
  read_row cells =
  vs ← mapM (λ kc : (string * ktype) * string, read_cell kc.1.2 kc.2)
            (zip KEY_TYPE cells);
  match vs with
  | n :: vs => Some (n, peer_of vs)
  | [] => None
  end.
Proof.
  intros Hlen. unfold read_row. rewrite decide_True by done.
  destruct (mapM _ _) as [vs|] eqn:E; [|done].
  apply length_mapM in E. rewrite length_zip_with, Hlen in E.
  change ((Some vs ≫= λ vs0, Some (get (list_to_map (zip fieldnames vs0)) "Name",
                                   delete "Name" (list_to_map (zip fieldnames vs0) : gmap string value)))
          = (Some vs ≫= λ vs0, match vs0 with n :: vs1 => Some (n, peer_of vs1) | [] => None end)).
  change (Some (get (list_to_map (zip fieldnames vs)) "Name",
                delete "Name" (list_to_map (zip fieldnames vs) : gmap string value))
          = match vs with n :: vs1 => Some (n, peer_of vs1) | [] => None end).
  destruct vs as [|v0 vs]; [done|].
  assert (length vs = length attributes) as Hl.
  { change (length KEY_TYPE `min` length fieldnames = S (length vs)) in E.
    change (length KEY_TYPE `min` length fieldnames) with (S (length attributes)) in E.
    by injection E. }
  by rewrite row_dict_name, row_dict_rest.
Qed.

Lemma read_row_Some cells n p :
  read_row cells = Some (n, p) →
  ∃ vs, Forall2 (λ (kc : (string * ktype) * string) v, read_cell kc.1.2 kc.2 = Some v)
                (zip KEY_TYPE cells) (n :: vs)
        ∧ length vs = length attributes ∧ p = peer_of vs.
Proof.
  intros H. pose proof (read_row_length _ _ H) as Hlen.
  rewrite read_row_eq in H by done.
  destruct (mapM _ _) as [vs|] eqn:E; [|done].
  pose proof (length_mapM _ _ _ E) as Hvs.
  rewrite length_zip_with, Hlen in Hvs.
  apply mapM_Some in E.
  destruct vs as [|v0 vs]; [done|]. injection H as <- <-.
  exists vs. split; [done|]. split; [|done].
  change (length KEY_TYPE `min` length fieldnames) with (S (length attributes)) in Hvs.
  by injection Hvs.
Qed.

Lemma read_row_wf cells n p :
  read_row cells = Some (n, p) →
  wf_value TStr n = true ∧ wf_peer p = true.
Proof.
  intros H. pose proof (read_row_length _ _ H) as Hlen.
  apply read_row_Some in H as (vs & F & Hvs & ->).
  rewrite wf_peer_of by done.
  explode cells Hlen. explode vs Hvs.
  cbn [zip zip_with KEY_TYPE attributes tail] in F |- *.
  repeat match goal with
         | H : Forall2 _ (_ :: _) (_ :: _) |- _ =>
             apply Forall2_cons in H as [?%read_cell_wf H]
         end.
  cbn [fst snd forallb] in *.
  split; [done|]. by repeat (apply andb_true_iff; split).
Qed.

(** Reading a row that [write_row] produced from well-formed values. *)
Lemma read_row_write n vs :
  length vs = length attributes →
  wf_value TStr n = true →
  forallb (λ kv : (string * ktype) * value, wf_value kv.1.2 kv.2)
          (zip attributes vs) = true →
  read_row (write_cell <$> n :: vs) = Some (n, peer_of vs).
Proof.
  intros Hlen Hn Hvs.
  rewrite read_row_eq by (rewrite length_fmap; simpl; by rewrite Hlen).
  assert (mapM (λ kc : (string * ktype) * string, read_cell kc.1.2 kc.2)
               (zip KEY_TYPE (write_cell <$> n :: vs)) = Some (n :: vs)) as ->; [|done].
  apply mapM_Some_2. explode vs Hlen.
  cbn [zip zip_with attributes KEY_TYPE tail forallb fst snd] in Hvs.
  repeat (apply andb_true_iff in Hvs as [?%read_write_cell Hvs]).
  apply read_write_cell in Hn.
  cbn [fmap list_fmap zip zip_with KEY_TYPE].
  repeat (constructor; [assumption|]). constructor.
Qed.

(** A peer with exactly the attribute keys is determined by its
    sixteen attribute values. *)
Lemma peer_as_list (p : gmap string value) :
  dom p = list_to_set attributes.*1 → p = peer_of (get p <$> attributes.*1).
Proof.
  intros Hdom.
  apply map_eq. intros k.
  destruct (decide (k ∈ attributes.*1)) as [Hk|Hk].
  - assert (is_Some (p !! k)) as [v Hv].
    { apply elem_of_dom. rewrite Hdom. by apply elem_of_list_to_set. }
    assert (get p k = v) as Hg by (unfold get; by rewrite Hv).
    rewrite Hv. revert Hg. generalize (get p). intros g.
    repeat (apply elem_of_cons in Hk as [->|Hk];
            [intros <-; vm_refl|]).
    by apply elem_of_nil in Hk.
  - assert (p !! k = None) as ->.
    { apply not_elem_of_dom. rewrite Hdom. by rewrite elem_of_list_to_set. }
    symmetry. apply not_elem_of_list_to_map_1.
    unfold peer_of. by rewrite fst_zip by done.
Qed.

Lemma wf_peer_as_list p :
  wf_peer p = true → p = peer_of (get p <$> attributes.*1).
Proof.
  intros [Hdom _]%andb_true_iff. apply bool_decide_eq_true in Hdom.
  by apply peer_as_list.
Qed.

End rows.

Section dictionaries.
Context {K V : Type} `{EqDecision K}.
Implicit Types (d : list (K * V)) (k : K) (v : V).

Lemma dict_set_fresh k v d : k ∉ d.*1 → dict_set k v d = d ++ [(k, v)].
Proof.
  induction d as [|[k' v'] d IH]; csimpl; [done|].
  intros Hk. apply not_elem_of_cons in Hk as [Hne Hk].
  rewrite decide_False by done. by rewrite IH.
Qed.

Lemma dict_set_keys k v d :
  (dict_set k v d).*1 = if decide (k ∈ d.*1) then d.*1 else d.*1 ++ [k].
Proof.
  induction d as [|[k' v'] d IH]; csimpl; [done|].
  destruct (decide (k' = k)) as [->|Hne]; csimpl.
  - rewrite decide_True by left. done.
  - rewrite IH. destruct (decide (k ∈ d.*1)).
    + rewrite decide_True by by right. done.
    + rewrite decide_False; [done|]. intros [?|?]%elem_of_cons; done.
Qed.

Lemma dict_set_NoDup k v d : NoDup d.*1 → NoDup (dict_set k v d).*1.
Proof.
  intros Hd. rewrite dict_set_keys. case_decide; [done|].
  apply NoDup_app. split_and!; [done| |apply NoDup_singleton].
  intros x Hx ->%list_elem_of_singleton. done.
Qed.

Lemma dict_set_elem k v d x :
  x ∈ dict_set k v d → x = (k, v) ∨ x ∈ d.
Proof.
  induction d as [|[k' v'] d IH]; csimpl.
  - intros ->%list_elem_of_singleton. by left.
  - case_decide; subst.
    + intros [->|?]%elem_of_cons; [by left|]. right. by right.
    + intros [->|?]%elem_of_cons; [right; by left|].
      destruct IH as [?|?]; [done|by left|]. right. by right.
Qed.

Lemma dict_get_set_eq k v d : dict_get k (dict_set k v d) = Some v.
Proof.
  induction d as [|[k' v'] d IH]; csimpl.
  - by rewrite decide_True.
  - destruct (decide (k' = k)) as [->|Hne]; csimpl.
    + by rewrite decide_True.
    + by rewrite decide_False.
Qed.


Lemma dict_get_Some k v d : dict_get k d = Some v → (k, v) ∈ d.
Proof.
  induction d as [|[k' v'] d IH]; csimpl; [done|].
  case_decide; subst.
  - intros [= ->]. by left.
  - intros ?. right. by apply IH.
Qed.


Lemma dict_get_elem k v d : NoDup d.*1 → (k, v) ∈ d → dict_get k d = Some v.
Proof.
  induction d as [|[k' v'] d IH]; csimpl.
  - intros _ []%elem_of_nil.
  - intros [Hk Hd]%NoDup_cons [[= -> ->]|Hin]%elem_of_cons.
    + by rewrite decide_True.
    + rewrite decide_False; [by apply IH|].
      intros ->. apply Hk. apply list_elem_of_fmap. by exists (k, v).
Qed.

End dictionaries.

Section registries.
Implicit Types (R acc : list (value * gmap string value)).

Lemma wf_registry_spec R :
  wf_registry R = true ↔
  NoDup R.*1 ∧
  Forall (λ np, wf_value TStr np.1 = true ∧ wf_peer np.2 = true) R.
Proof.
  unfold wf_registry. rewrite andb_true_iff, bool_decide_eq_true.
  rewrite forallb_forall, Forall_forall.
  split; intros [? H]; (split; [done|]); intros x Hx.
  - apply andb_true_iff, H. by apply list_elem_of_In.
  - apply andb_true_iff, H. by apply list_elem_of_In.
Qed.

Lemma read_rows_wf rows acc R :
  wf_registry acc = true → read_rows rows acc = Some R → wf_registry R = true.
Proof.
  revert acc. induction rows as [|cells rows IH]; simpl; intros acc Hacc.
  { by intros [= <-]. }
  case_decide; [by apply IH|].
  destruct (read_row cells) as [[n p]|] eqn:E; [|done]. csimpl.
  apply IH. apply read_row_wf in E as [Hn Hp].
  apply wf_registry_spec in Hacc as [Hnd Hall].
  apply wf_registry_spec. split; [by apply dict_set_NoDup|].
  apply Forall_forall. intros x [->|Hx]%dict_set_elem; [done|].
  rewrite Forall_forall in Hall. by apply Hall.
Qed.

(** The invariant of every operation: what [read_database] returns is a
    well-formed registry. *)
Lemma read_database_wf st R :
  read_database st = Some R → wf_registry R = true.
Proof.
  destruct st as [rows|]; simpl; [|by intros [= <-]].
  by apply read_rows_wf.
Qed.

Lemma read_rows_fresh rows R acc :
  Forall2 (λ cells np, read_row cells = Some np) rows R →
  NoDup (acc.*1 ++ R.*1) →
  read_rows rows acc = Some (acc ++ R).
Proof.
  intros F. revert acc. induction F as [|cells [n p] rows R Hrow F IH]; intros acc Hnd.
  { csimpl. by rewrite app_nil_r. }
  csimpl. rewrite decide_False.
  2:{ intros ->. by apply read_row_length in Hrow. }
  rewrite Hrow. csimpl. simpl in Hnd.
  rewrite dict_set_fresh.
  2:{ apply NoDup_app in Hnd as (_ & Hd & _). intros Hin. apply (Hd _ Hin). by left. }
  rewrite IH; [by rewrite <- app_assoc|].
  rewrite fmap_app. csimpl. rewrite <- app_assoc. done.
Qed.

End registries.

Section round_trip.

Lemma write_read_row n p :
  wf_value TStr n = true → wf_peer p = true →
  ∃ cells, write_row n p = Some cells ∧ read_row cells = Some (n, p).
Proof.
  intros Hn Hp. pose proof (wf_peer_as_list p Hp) as Hl.
  set (vs := get p <$> attributes.*1) in *.
  assert (length vs = length attributes) as Hlen by done.
  rewrite Hl in Hp |- *. rewrite wf_peer_of in Hp by done.
  eexists. split; [by apply write_row_peer_of|]. by apply read_row_write.
Qed.





Lemma registry_load_save R :
  wf_registry R = true →
  ∃ t, write_database R = Some t ∧ read_database (Some t) = Some R.
Proof.
  intros [Hnd Hall]%wf_registry_spec.
  assert (∃ t, Forall2 (λ np cells, write_row np.1 np.2 = Some cells
                                    ∧ read_row cells = Some np) R t) as [t F].
  { clear Hnd. induction Hall as [|[n p] R [Hn Hp] _ [t IH]]; [by exists []|].
    destruct (write_read_row n p Hn Hp) as (cells & ? & ?).
    exists (cells :: t). by constructor. }
  exists t. split.
  - apply mapM_Some. eapply Forall2_impl; [exact F|]. by intros ?? [? ?].
  - simpl. apply (read_rows_fresh t R []); [|done].
    apply Forall2_flip. eapply Forall2_impl; [exact F|]. by intros ?? [? ?].
Qed.


End round_trip.

(* ================================================================== *)
(** ** Registry storage round trips *)
(* ================================================================== *)




(* ================================================================== *)
(** ** The PSK assignment *)
(* ================================================================== *)

Section combinations_facts.
Context {A : Type}.
Implicit Types (l : list A) (a b x : A).

Lemma sum_range_double n : 2 * sum_range n = n * (n - 1).
Proof. induction n as [|n IH]; simpl; [done|]. destruct n; simpl in *; lia. Qed.

Lemma length_combinations l : length (combinations l) = sum_range (length l).
Proof.
  induction l as [|x l IH]; simpl; [done|].
  rewrite length_app, length_fmap, IH. lia.
Qed.

Lemma elem_of_combinations_cons a b x l :
  (a, b) ∈ combinations (x :: l) ↔ (a = x ∧ b ∈ l) ∨ (a, b) ∈ combinations l.
Proof.
  simpl. rewrite elem_of_app, list_elem_of_fmap. split.
  - intros [(y & [= -> ->] & Hy)|?]; [left|right]; done.
  - intros [[-> Hb]|?]; [left; by exists b|by right].
Qed.

Lemma elem_of_combinations a b l : (a, b) ∈ combinations l → a ∈ l ∧ b ∈ l.
Proof.
  induction l as [|x l IH]; [by intros ?%elem_of_nil|].
  rewrite elem_of_combinations_cons. intros [[-> Hb]|H].
  - split; [left|by right].
  - destruct (IH H). split; by right.
Qed.

Lemma NoDup_combinations l : NoDup l → NoDup (combinations l).
Proof.
  induction 1 as [|x l Hx Hl IH]; simpl; [constructor|].
  apply NoDup_app. split_and!; [|
    | done].
  - apply NoDup_fmap_2; [|done]. by intros ?? [= ->].
  - intros [a b] (y & [= -> ->] & Hy)%list_elem_of_fmap Hin.
    by apply elem_of_combinations in Hin as [? _].
Qed.

Lemma combinations_total a b l :
  a ∈ l → b ∈ l → a ≠ b → (a, b) ∈ combinations l ∨ (b, a) ∈ combinations l.
Proof.
  induction l as [|x l IH]; [by intros ?%elem_of_nil|].
  rewrite !elem_of_combinations_cons.
  intros [->|Ha]%elem_of_cons [->|Hb]%elem_of_cons Hne; try done.
  - left. by left.
  - right. by left.
  - destruct (IH Ha Hb Hne); [left|right]; by right.
Qed.

Lemma combinations_asym a b l :
  NoDup l → (a, b) ∈ combinations l → (b, a) ∉ combinations l.
Proof.
  induction 1 as [|x l Hx Hl IH]; [by intros ?%elem_of_nil|].
  rewrite !elem_of_combinations_cons. intros [[-> Hb]|Hab] [[-> Ha]|Hba]; try done.
  - by apply elem_of_combinations in Hba as [_ ?].
  - by apply elem_of_combinations in Hab as [_ ?].
  - by apply IH.
Qed.

Lemma pop_reverse_cons x l : pop (reverse (x :: l)) = Some (x, reverse l).
Proof. unfold pop. by rewrite reverse_involutive. Qed.

End combinations_facts.

Section assignment.
Context (env : Env).

(** The loop hands out the pool front to back and then fresh keys. *)
Lemma assign_psks_supply combos pool inform calls :
  assign_psks env combos (reverse pool) inform calls
  = (zip_with (λ (c : value * value) k, (c.1, c.2, k)) combos
              (psk_supply env calls pool (length combos)),
     inform + (length combos - length pool),
     calls + (length combos - length pool)).
Proof.
  revert pool inform calls.
  induction combos as [|[a b] combos IH]; intros pool inform calls.
  { simpl. by rewrite !Nat.add_0_r. }
  destruct pool as [|k pool].
  - change (reverse (@nil string)) with (@nil string).
    cbn [assign_psks]. change (pop (@nil string)) with (@None (string * list string)).
    cbn match. change (@nil string) with (reverse (@nil string)) at 1.
    rewrite IH. unfold psk_supply. simpl.
    rewrite !Nat.sub_0_r. repeat f_equal; lia.
  - cbn [assign_psks]. rewrite pop_reverse_cons. rewrite IH.
    unfold psk_supply. simpl. done.
Qed.

Lemma assign_psks_pairs combos pool inform calls :
  (assign_psks env combos (reverse pool) inform calls).1.1.*1 = combos.
Proof.
  rewrite assign_psks_supply. simpl.
  assert (length (psk_supply env calls pool (length combos)) = length combos) as Hl.
  { unfold psk_supply. rewrite length_take, length_app, length_fmap, length_seq. lia. }
  revert Hl. generalize (psk_supply env calls pool (length combos)).
  induction combos as [|[a b] combos IH]; intros [|k ks]; simpl; try done.
  intros [= Hl]. by rewrite IH.
Qed.

Lemma assign_psks_keys combos pool inform calls :
  (assign_psks env combos (reverse pool) inform calls).1.1.*2
  = psk_supply env calls pool (length combos).
Proof.
  rewrite assign_psks_supply. simpl.
  assert (length (psk_supply env calls pool (length combos)) = length combos) as Hl.
  { unfold psk_supply. rewrite length_take, length_app, length_fmap, length_seq. lia. }
  revert Hl. generalize (psk_supply env calls pool (length combos)).
  induction combos as [|[a b] combos IH]; intros [|k ks]; simpl; try done.
  intros [= Hl]. by rewrite IH.
Qed.

End assignment.

Section loaded.
Implicit Types (db : list (value * gmap string value)) (p : gmap string value).

(** In a well-formed peer every attribute key is present with a value of
    its column's type. *)
Lemma wf_peer_lookup p k ty :
  wf_peer p = true → (k, ty) ∈ attributes →
  ∃ v, p !! k = Some v ∧ get p k = v ∧ wf_value ty v = true.
Proof.
  intros [Hdom Hall]%andb_true_iff Hin. apply bool_decide_eq_true in Hdom.
  assert (is_Some (p !! k)) as [v Hv].
  { apply elem_of_dom. rewrite Hdom. apply elem_of_list_to_set.
    apply list_elem_of_fmap. by exists (k, ty). }
  exists v. assert (get p k = v) as Hg by (unfold get; by rewrite Hv).
  split; [done|]. split; [done|].
  rewrite forallb_forall in Hall. apply list_elem_of_In in Hin.
  specialize (Hall _ Hin). simpl in Hall. by rewrite Hg in Hall.
Qed.

Lemma wf_registry_peer db n p :
  wf_registry db = true → (n, p) ∈ db →
  wf_value TStr n = true ∧ wf_peer p = true.
Proof.
  intros [_ Hall]%wf_registry_spec Hin.
  rewrite Forall_forall in Hall. exact (Hall _ Hin).
Qed.

Lemma wf_registry_get db n p :
  wf_registry db = true → (n, p) ∈ db → dict_get n db = Some p.
Proof. intros [Hnd _]%wf_registry_spec. by apply dict_get_elem. Qed.

(** The [PresharedKeys] of a loaded peer is [None] or a non-empty
    string, so both tests of the program agree on it. *)
Lemma wf_peer_psk p :
  wf_peer p = true →
  ∃ v, p !! "PresharedKeys" = Some v
       ∧ (if is_not_None v then psk_split v else Some []) = Some (inventory p)
       ∧ (if truthy v then length <$> psk_split v else Some 0)
         = Some (length (inventory p)).
Proof.
  intros Hp.
  destruct (wf_peer_lookup p "PresharedKeys" TStr Hp) as (v & Hv & Hg & Hwf).
  { apply list_elem_of_In. vm_compute. tauto. }
  exists v. split; [done|]. unfold inventory. rewrite Hg.
  destruct v; try done. simpl in *. by rewrite Hwf.
Qed.

Lemma psk_pool_loaded db peers :
  wf_registry db = true → peers ⊆ db.*1 →
  psk_pool peers db = Some (concat ((λ n, inventory (default ∅ (dict_get n db))) <$> peers)).
Proof.
  intros Hdb. induction peers as [|n peers IH]; intros Hsub; [done|].
  assert (n ∈ db.*1) as Hn by (apply Hsub; left).
  apply list_elem_of_fmap in Hn as ([n' p] & -> & Hin).
  pose proof (wf_registry_get _ _ _ Hdb Hin) as Hget.
  pose proof (wf_registry_peer _ _ _ Hdb Hin) as [_ Hp].
  destruct (wf_peer_psk p Hp) as (v & Hv & Hinv & _).
  cbn [psk_pool]. simpl fst. rewrite Hget. cbn [mbind option_bind].
  rewrite Hv. cbn [mbind option_bind]. rewrite Hinv. cbn [mbind option_bind].
  rewrite IH by (intros x Hx; apply Hsub; by right).
  csimpl. by rewrite Hget.
Qed.

End loaded.

Section psk_claims.
Implicit Types (db : list (value * gmap string value)).

Lemma psk_pool_all db :
  wf_registry db = true → psk_pool db.*1 db = Some (pool_of db).
Proof.
  intros Hdb. rewrite psk_pool_loaded by done. unfold pool_of. do 2 f_equal.
  rewrite <- !list_fmap_compose. apply Forall_fmap_ext, Forall_forall.
  intros [n p] Hin. simpl. by rewrite (wf_registry_get _ _ _ Hdb Hin).
Qed.

Lemma length_psk_supply env calls pool (n : nat) :
  length (psk_supply env calls pool n) = n.
Proof.
  unfold psk_supply. rewrite length_take, length_app, length_fmap, length_seq. lia.
Qed.

Lemma psk_supply_pool env calls pool (n i : nat) :
  i < length pool → i < n → psk_supply env calls pool n !! i = pool !! i.
Proof.
  intros Hi Hn. unfold psk_supply.
  rewrite lookup_take_lt by done. by rewrite lookup_app_l.
Qed.

Lemma psk_supply_full env calls pool (n : nat) :
  n ≤ length pool → psk_supply env calls pool n = take n pool.
Proof.
  intros Hn. unfold psk_supply.
  replace (n - length pool) with 0 by lia. simpl. by rewrite app_nil_r.
Qed.

(** What [calculate_psks] returns on a loaded registry. *)
Lemma calculate_psks_loaded env calls db :
  wf_registry db = true →
  calculate_psks env calls db.*1 db
  = Some (zip_with (λ (c : value * value) k, (c.1, c.2, k)) (combinations db.*1)
                   (psk_supply env calls (pool_of db) (sum_range (length db))),
          sum_range (length db) - length (pool_of db),
          calls + (sum_range (length db) - length (pool_of db))).
Proof.
  intros Hdb. unfold calculate_psks. rewrite psk_pool_all by done.
  cbn [mbind option_bind]. rewrite assign_psks_supply.
  by rewrite length_combinations, length_fmap.
Qed.

Lemma zip_with_fst_snd (combos : list (value * value)) (ks : list string) :
  length ks = length combos →
  (zip_with (λ (c : value * value) k, (c.1, c.2, k)) combos ks).*1 = combos
  ∧ (zip_with (λ (c : value * value) k, (c.1, c.2, k)) combos ks).*2 = ks.
Proof.
  revert ks. induction combos as [|[a b] combos IH]; intros [|k ks]; csimpl; try done.
  intros [= Hl]. destruct (IH ks Hl) as [-> ->]. done.
Qed.

End psk_claims.

Section psk_theorems.
Implicit Types (db : list (value * gmap string value)).

(** C3.  On the registry read from storage, [calculate_psks] over all
    [N] peers returns [N (N - 1) / 2] assignments; the pairs are pairwise
    different, each joins two different peers and never occurs in the
    other orientation as well, and any two different peers are joined by
    one of them.  The keys are pairwise different when the pool and the
    keys the provider returns during the run are. *)
Theorem psk_completeness env calls st db :
  read_database st = Some db →
  ∃ tuples inform calls',
    calculate_psks env calls db.*1 db = Some (tuples, inform, calls')
    ∧ 2 * length tuples = length db * (length db - 1)
    ∧ NoDup tuples.*1
    ∧ (∀ a b, (a, b) ∈ tuples.*1 →
              a ∈ db.*1 ∧ b ∈ db.*1 ∧ a ≠ b ∧ (b, a) ∉ tuples.*1)
    ∧ (∀ a b, a ∈ db.*1 → b ∈ db.*1 → a ≠ b →
              (a, b) ∈ tuples.*1 ∨ (b, a) ∈ tuples.*1)
    ∧ (NoDup (pool_of db
              ++ (genkey env <$> seq calls (length tuples - length (pool_of db)))) →
       NoDup tuples.*2).
Proof.
  intros Hdb%read_database_wf.
  pose proof (proj1 (wf_registry_spec db) Hdb) as [Hnd _].
  do 3 eexists. split; [by apply calculate_psks_loaded|].
  set (ks := psk_supply env calls (pool_of db) (sum_range (length db))).
  assert (length ks = length (combinations db.*1)) as Hl
    by (unfold ks; by rewrite length_psk_supply, length_combinations, length_fmap).
  destruct (zip_with_fst_snd _ _ Hl) as [Hfst Hsnd].
  rewrite Hfst, Hsnd, length_zip_with, Hl, Nat.min_id.
  rewrite length_combinations, length_fmap.
  split; [apply sum_range_double|]. split; [by apply NoDup_combinations|].
  split; [|split].
  - intros a b Hab. pose proof (elem_of_combinations _ _ _ Hab) as [Ha Hb].
    pose proof (combinations_asym _ _ _ Hnd Hab) as Hba.
    split_and!; try done. by intros ->.
  - intros a b. apply combinations_total.
  - intros Hfresh. unfold ks, psk_supply.
    eapply sublist_NoDup; [exact Hfresh|apply sublist_take].
Qed.

Lemma psk_completeness_witness :
  read_database (Some mesh_table) = Some mesh_registry ∧
  ∃ tuples inform calls',
    calculate_psks env_run1 0 mesh_registry.*1 mesh_registry
    = Some (tuples, inform, calls')
    ∧ 2 * length tuples = length mesh_registry * (length mesh_registry - 1)
    ∧ NoDup tuples.*1
    ∧ (∀ a b, (a, b) ∈ tuples.*1 →
              a ∈ mesh_registry.*1 ∧ b ∈ mesh_registry.*1 ∧ a ≠ b
              ∧ (b, a) ∉ tuples.*1)
    ∧ (∀ a b, a ∈ mesh_registry.*1 → b ∈ mesh_registry.*1 → a ≠ b →
              (a, b) ∈ tuples.*1 ∨ (b, a) ∈ tuples.*1)
    ∧ (NoDup (pool_of mesh_registry
              ++ (genkey env_run1
                    <$> seq 0 (length tuples - length (pool_of mesh_registry)))) →
       NoDup tuples.*2).
Proof.
  assert (read_database (Some mesh_table) = Some mesh_registry) as E
    by vm_refl.
  split; [exact E|].
  exact (psk_completeness env_run1 0 (Some mesh_table) mesh_registry E).
Defined.

(** C7.  When the inventories already hold [N (N - 1) / 2] keys, the run
    reports no generated key and makes no call to [genkey], whatever the
    provider. *)
Theorem full_inventory_no_synthesis env calls st db :
  read_database st = Some db →
  length db * (length db - 1) ≤ 2 * length (pool_of db) →
  ∃ tuples, ∀ env' calls',
    calculate_psks env' calls' db.*1 db = Some (tuples, 0, calls')
    ∧ calculate_psks env calls db.*1 db = Some (tuples, 0, calls).
Proof.
  intros Hdb%read_database_wf Hfull.
  pose proof (sum_range_double (length db)) as Hs.
  assert (sum_range (length db) ≤ length (pool_of db)) as Hle by lia.
  exists (zip_with (λ (c : value * value) k, (c.1, c.2, k)) (combinations db.*1)
                   (take (sum_range (length db)) (pool_of db))).
  intros env' calls'. rewrite !calculate_psks_loaded by done.
  rewrite !psk_supply_full by done.
  replace (sum_range (length db) - length (pool_of db)) with 0 by lia.
  by rewrite !Nat.add_0_r.
Qed.

Lemma full_inventory_no_synthesis_witness :
  read_database (Some full_table) = Some full_registry ∧
  length full_registry * (length full_registry - 1)
    ≤ 2 * length (pool_of full_registry) ∧
  ∃ tuples, ∀ env' calls',
    calculate_psks env' calls' full_registry.*1 full_registry
    = Some (tuples, 0, calls')
    ∧ calculate_psks env_run1 0 full_registry.*1 full_registry
      = Some (tuples, 0, 0).
Proof.
  assert (read_database (Some full_table) = Some full_registry) as E
    by vm_refl.
  assert (length full_registry * (length full_registry - 1)
          ≤ 2 * length (pool_of full_registry)) as H
    by (vm_compute; lia).
  split; [exact E|]. split; [exact H|].
  exact (full_inventory_no_synthesis env_run1 0 (Some full_table) full_registry E H).
Defined.

(** C4, as the code has it.  The pool is the concatenation of the
    inventories in peer order ([pool_of]); it is reversed and popped from
    its end, so the pair at position [i] of the combination order
    receives entry [i] of the pool.  Two runs on the same registry agree
    on every pair served from the pool, and on the whole assignment when
    the pool covers all pairs; the keys generated for the remaining
    pairs come from the provider and differ from run to run. *)
Theorem psk_pool_order env calls st db :
  read_database st = Some db →
  ∃ tuples inform calls',
    calculate_psks env calls db.*1 db = Some (tuples, inform, calls')
    ∧ tuples.*1 = combinations db.*1
    ∧ tuples.*2 = psk_supply env calls (pool_of db) (length tuples)
    ∧ (∀ i k, i < length tuples → pool_of db !! i = Some k →
              tuples.*2 !! i = Some k)
    ∧ (∀ env2 calls2 tuples2 inform2 calls2',
         calculate_psks env2 calls2 db.*1 db = Some (tuples2, inform2, calls2') →
         take (length (pool_of db)) tuples2 = take (length (pool_of db)) tuples
         ∧ (length tuples ≤ length (pool_of db) → tuples2 = tuples)).
Proof.
  intros Hdb%read_database_wf.
  do 3 eexists. split; [by apply calculate_psks_loaded|].
  set (n := sum_range (length db)).
  assert (length (combinations db.*1) = n) as Hn
    by by rewrite length_combinations, length_fmap.
  assert (∀ e c, length (psk_supply e c (pool_of db) n)
                 = length (combinations db.*1)) as Hl
    by (intros; by rewrite length_psk_supply).
  destruct (zip_with_fst_snd _ _ (Hl env calls)) as [Hfst Hsnd].
  rewrite Hfst, Hsnd, length_zip_with, Hl, Nat.min_id, Hn.
  split; [done|]. split; [done|]. split.
  - intros i k Hi Hk. rewrite psk_supply_pool; [done| |done].
    by apply lookup_lt_Some in Hk.
  - intros env2 calls2 tuples2 inform2 calls2' H2.
    rewrite calculate_psks_loaded in H2 by done. injection H2 as <- _ _.
    fold n. split.
    + apply list_eq. intros i. rewrite !lookup_take.
      case_decide as Hi; [|done]. rewrite !lookup_zip_with.
      destruct (combinations db.*1 !! i) as [c|] eqn:Hc; [|done]. simpl.
      apply lookup_lt_Some in Hc. rewrite Hn in Hc.
      by rewrite !psk_supply_pool.
    + intros Hfull. by rewrite !psk_supply_full.
Qed.

Lemma psk_pool_order_witness :
  read_database (Some mesh_table) = Some mesh_registry ∧
  ∃ tuples inform calls',
    calculate_psks env_run1 0 mesh_registry.*1 mesh_registry
    = Some (tuples, inform, calls')
    ∧ tuples.*1 = combinations mesh_registry.*1
    ∧ tuples.*2 = psk_supply env_run1 0 (pool_of mesh_registry) (length tuples)
    ∧ (∀ i k, i < length tuples → pool_of mesh_registry !! i = Some k →
              tuples.*2 !! i = Some k)
    ∧ (∀ env2 calls2 tuples2 inform2 calls2',
         calculate_psks env2 calls2 mesh_registry.*1 mesh_registry
         = Some (tuples2, inform2, calls2') →
         take (length (pool_of mesh_registry)) tuples2
         = take (length (pool_of mesh_registry)) tuples
         ∧ (length tuples ≤ length (pool_of mesh_registry) → tuples2 = tuples)).
Proof.
  assert (read_database (Some mesh_table) = Some mesh_registry) as E by vm_refl.
  split; [exact E|].
  exact (psk_pool_order env_run1 0 (Some mesh_table) mesh_registry E).
Defined.

(** C4 as stated fails: on a registry whose pool does not cover every
    pair, two runs (two sequences of generated keys) give different
    assignments. *)
Lemma psk_assignment_differs_between_runs :
  read_database (Some bare_table) = Some bare_registry
  ∧ calculate_psks env_run1 0 bare_registry.*1 bare_registry
    = Some ([(VStr "A", VStr "B", "run1-0")], 1, 1)
  ∧ calculate_psks env_run2 0 bare_registry.*1 bare_registry
    = Some ([(VStr "A", VStr "B", "run2-0")], 1, 1)
  ∧ calculate_psks env_run1 0 bare_registry.*1 bare_registry
    ≠ calculate_psks env_run2 0 bare_registry.*1 bare_registry.
Proof.
  assert (calculate_psks env_run1 0 bare_registry.*1 bare_registry
          = Some ([(VStr "A", VStr "B", "run1-0")], 1, 1)) as H1 by vm_refl.
  assert (calculate_psks env_run2 0 bare_registry.*1 bare_registry
          = Some ([(VStr "A", VStr "B", "run2-0")], 1, 1)) as H2 by vm_refl.
  split; [vm_refl|]. split; [done|]. split; [done|].
  rewrite H1, H2. discriminate.
Qed.

End psk_theorems.

(* ================================================================== *)
(** ** The initializer *)
(* ================================================================== *)

Section init_facts.
Implicit Types (db rest : list (value * gmap string value)) (p : gmap string value).

Lemma pop_nil {A} : pop (@nil A) = None.
Proof. reflexivity. Qed.

Lemma pop_snoc {A} (l : list A) x : pop (l ++ [x]) = Some (x, l).
Proof. unfold pop. by rewrite reverse_snoc, reverse_involutive. Qed.

Lemma pop_Some {A} (l r : list A) x : pop l = Some (x, r) → l = r ++ [x].
Proof.
  destruct l as [|y l _] using rev_ind; [done|].
  rewrite pop_snoc. by intros [= -> ->].
Qed.


Lemma psk_present_loaded db :
  wf_registry db = true → psk_present db = Some (length (pool_of db)).
Proof.
  intros [_ Hall]%wf_registry_spec. unfold pool_of.
  induction Hall as [|[n p] db [_ Hp] _ IH]; [done|].
  destruct (wf_peer_psk p Hp) as (v & Hv & _ & Hlen).
  cbn [psk_present]. rewrite Hv. cbn [mbind option_bind].
  rewrite Hlen. cbn [mbind option_bind]. rewrite IH. csimpl.
  by rewrite length_app.
Qed.




End init_facts.

Section init_claims.
Implicit Types (db rest : list (value * gmap string value)).





End init_claims.

(* ================================================================== *)
(** ** [updatepeer] *)
(* ================================================================== *)

Section update_facts.
Implicit Types (db : list (value * gmap string value)) (p : gmap string value).

Lemma assign_fold_lookup args ks p key :
  foldl (λ (q : gmap string value) k,
           if is_not_None (locals_get args k)
           then <[k := locals_get args k]> q else q) p ks !! key
  = if bool_decide (key ∈ ks) && is_not_None (locals_get args key)
    then Some (locals_get args key) else p !! key.
Proof.
  revert p. induction ks as [|k ks IH]; intros p; [done|].
  cbn [foldl]. rewrite IH.
  destruct (decide (key = k)) as [->|Hne].
  - rewrite (bool_decide_eq_true_2 (k ∈ k :: ks)) by left.
    destruct (is_not_None (locals_get args k)) eqn:E.
    + rewrite lookup_insert_eq. by destruct (bool_decide _).
    + by rewrite andb_false_r.
  - assert (bool_decide (key ∈ k :: ks) = bool_decide (key ∈ ks)) as ->.
    { apply bool_decide_ext. rewrite elem_of_cons.
      split; [by intros [?|?]|by right]. }
    destruct (is_not_None (locals_get args k)); [|done].
    by rewrite lookup_insert_ne.
Qed.

Lemma locals_get_parameter args key :
  locals_get args key ≠ VNone → key ∈ attributes.*1.
Proof.
  unfold locals_get. case_bool_decide as Hin; [|done]. intros _.
  assert (forallb (λ k, bool_decide (k ∈ attributes.*1)) attribute_parameters = true)
    as Hall by vm_refl.
  rewrite forallb_forall in Hall. apply list_elem_of_In in Hin.
  specialize (Hall _ Hin). by apply bool_decide_eq_true in Hall.
Qed.

(** What [updatepeer] leaves in the peer: a supplied value under its
    key, the old entry everywhere else. *)
Lemma assign_attributes_lookup args p key :
  assign_attributes args p !! key
  = if is_not_None (locals_get args key)
    then Some (locals_get args key) else p !! key.
Proof.
  unfold assign_attributes. rewrite assign_fold_lookup.
  destruct (is_not_None (locals_get args key)) eqn:E;
    [|by rewrite andb_false_r].
  rewrite andb_true_r. rewrite bool_decide_eq_true_2; [done|].
  assert (locals_get args key ≠ VNone) as Hne by (by destruct (locals_get args key)).
  unfold locals_get in Hne. case_bool_decide as Hin; [|done].
  revert Hin. unfold attribute_parameters, INTERFACE_ATTRIBUTES, PEER_ATTRIBUTES.
  cbn [app]. rewrite !elem_of_cons, !elem_of_nil. tauto.
Qed.

Lemma assign_attributes_dom args p :
  dom p = list_to_set attributes.*1 →
  dom (assign_attributes args p) = list_to_set attributes.*1.
Proof.
  intros Hdom. apply set_eq. intros k.
  rewrite <- Hdom, !elem_of_dom, assign_attributes_lookup.
  destruct (is_not_None (locals_get args k)) eqn:E; [|done].
  split; [intros _|by eauto].
  apply elem_of_dom. rewrite Hdom. apply elem_of_list_to_set.
  apply (locals_get_parameter args). by destruct (locals_get args k).
Qed.

End update_facts.

Section reread.
Implicit Types (db : list (value * gmap string value)) (p : gmap string value).

Lemma write_row_dom n p :
  dom p = list_to_set attributes.*1 →
  write_row n p = Some (write_cell <$> n :: (get p <$> attributes.*1)).
Proof.
  intros Hdom. rewrite (peer_as_list p Hdom) at 1.
  by rewrite write_row_peer_of.
Qed.

(** A cell that is not empty never reads as [None]. *)
Lemma read_cell_not_None ty c v :
  c ≠ "" → read_cell ty c = Some v → v ≠ VNone.
Proof.
  intros Hc%eqb_empty. unfold read_cell. rewrite Hc.
  destruct ty; [by intros [= <-]..| |by intros [= <-]].
  destruct (int_of_str c); [|done]. by intros [= <-].
Qed.

(** The values read from the row that was written for a peer. *)
Lemma read_written_row n p cells n' p' :
  dom p = list_to_set attributes.*1 →
  write_row n p = Some cells → read_row cells = Some (n', p') →
  read_cell TStr (write_cell n) = Some n'
  ∧ ∀ k ty, (k, ty) ∈ attributes →
            read_cell ty (write_cell (get p k)) = Some (get p' k).
Proof.
  intros Hdom Hw Hr. rewrite write_row_dom in Hw by done. injection Hw as <-.
  apply read_row_Some in Hr as (vs & F & Hvs & ->).
  explode vs Hvs.
  cbn [fmap list_fmap zip zip_with KEY_TYPE attributes tail fst] in F.
  repeat match goal with
         | H : Forall2 _ (_ :: _) (_ :: _) |- _ =>
             apply Forall2_cons in H as [? H]
         end.
  cbn [fst snd] in *. split; [done|].
  intros k ty Hin. unfold attributes in Hin. cbn [tail KEY_TYPE] in Hin.
  repeat (apply elem_of_cons in Hin as [[= -> ->]|Hin];
          [etrans; [eassumption|]; symmetry; vm_refl|]).
  by apply elem_of_nil in Hin.
Qed.

Lemma read_rows_inv rows acc R :
  read_rows rows acc = Some R → Forall (λ cells, cells ≠ []) rows →
  ∃ nps, Forall2 (λ cells np, read_row cells = Some np) rows nps
         ∧ R = foldl (λ d (np : value * gmap string value), dict_set np.1 np.2 d) acc nps.
Proof.
  revert acc. induction rows as [|cells rows IH]; intros acc H Hne.
  { injection H as <-. by exists []. }
  apply Forall_cons in Hne as [Hc Hne]. cbn [read_rows] in H.
  rewrite decide_False in H by done.
  destruct (read_row cells) as [np|] eqn:E; [|done]. cbn [mbind option_bind] in H.
  destruct (IH _ H Hne) as (nps & F & ->).
  exists (np :: nps). split; [by constructor|done].
Qed.

End reread.

Section update_claims.
Implicit Types (db : list (value * gmap string value)) (p : gmap string value).

(** The relation between a registry that is written and what is read
    back from the table: same names in the same order, every attribute
    the coercion of the cell written for it. *)
Lemma reread_written db t db' :
  NoDup db.*1 →
  Forall (λ np, wf_value TStr np.1 = true
                ∧ dom np.2 = list_to_set attributes.*1) db →
  write_database db = Some t → read_database (Some t) = Some db' →
  Forall2 (λ np np' : value * gmap string value,
             np'.1 = np.1
             ∧ ∀ k ty, (k, ty) ∈ attributes →
                 read_cell ty (write_cell (get np.2 k)) = Some (get np'.2 k))
          db db'.
Proof.
  intros Hnd Hall Hw Hr. apply mapM_Some in Hw. simpl in Hr.
  assert (Forall (λ cells : list string, cells ≠ []) t) as Hne.
  { apply Forall_forall. intros cells Hin.
    apply list_elem_of_lookup in Hin as [i Hi].
    destruct (Forall2_lookup_r _ _ _ _ _ Hw Hi) as ([n p] & Hnp & Hrow).
    rewrite Forall_forall in Hall.
    destruct (Hall (n, p)) as [_ Hdom]; [by eapply list_elem_of_lookup_2|].
    simpl in Hrow. rewrite write_row_dom in Hrow by done. by injection Hrow as <-. }
  destruct (read_rows_inv _ _ _ Hr Hne) as (nps & F & Hdb').
  assert (Forall2 (λ np np' : value * gmap string value,
             np'.1 = np.1
             ∧ ∀ k ty, (k, ty) ∈ attributes →
                 read_cell ty (write_cell (get np.2 k)) = Some (get np'.2 k))
          db nps) as Hrel.
  { clear Hr Hdb' Hne Hnd. revert nps F.
    induction Hw as [|[n p] cells db t Hrow Hw IH]; intros nps F.
    { apply Forall2_nil_inv_l in F as ->. constructor. }
    apply Forall2_cons_inv_l in F as ([n' p'] & nps' & Hread & F & ->).
    apply Forall_cons in Hall as [[Hn Hdom] Hall].
    destruct (read_written_row n p cells n' p' Hdom Hrow Hread) as [Hn' Hattr].
    rewrite (read_write_cell TStr n Hn) in Hn'. injection Hn' as <-.
    constructor; [done|]. by apply IH. }
  assert (nps.*1 = db.*1) as Hnames.
  { clear -Hrel. induction Hrel as [|[??] [??] ?? [Hn _] _ IH]; csimpl; [done|].
    simpl in Hn. by rewrite IH, Hn. }
  pose proof (read_rows_fresh t nps [] F) as Hfresh.
  simpl in Hfresh. rewrite Hnames in Hfresh. rewrite (Hfresh Hnd) in Hr.
  by injection Hr as <-.
Qed.

Lemma write_database_dom db :
  Forall (λ np, dom np.2 = list_to_set attributes.*1) db →
  is_Some (write_database db).
Proof.
  intros Hall. apply mapM_is_Some. eapply Forall_impl; [exact Hall|].
  intros [n p] Hdom. simpl. by rewrite write_row_dom.
Qed.

Lemma dict_get_related {V} (Q : V → V → Prop) (l l' : list (value * V)) k v :
  Forall2 (λ np np', np'.1 = np.1 ∧ Q np.2 np'.2) l l' →
  dict_get k l = Some v → ∃ v', dict_get k l' = Some v' ∧ Q v v'.
Proof.
  induction 1 as [|[n x] [n' x'] l l' [Hn HQ] _ IH]; [done|].
  simpl in Hn, HQ. subst n'. cbn [dict_get]. case_decide.
  - intros [= ->]. by exists x'.
  - apply IH.
Qed.

End update_claims.

Section update_theorems.
Implicit Types (db : list (value * gmap string value)) (p : gmap string value).

Lemma get_outside_dom p key :
  dom p = list_to_set attributes.*1 → key ∉ attributes.*1 → get p key = VNone.
Proof.
  intros Hdom Hk. unfold get.
  assert (p !! key = None) as ->; [|done].
  apply not_elem_of_dom. rewrite Hdom. by rewrite elem_of_list_to_set.
Qed.

Lemma wf_peer_dom p : wf_peer p = true → dom p = list_to_set attributes.*1.
Proof. intros [Hdom _]%andb_true_iff. by apply bool_decide_eq_true in Hdom. Qed.

(** C9, as the code has it.  [updatepeer] on a peer that exists rewrites
    the database, and in what is stored afterwards every attribute whose
    argument was left at [None] has the value it had.  A set attribute
    stays set unless a value that is written as the empty cell (the empty
    string, the empty list) is supplied for it. *)
Theorem updatepeer_frame st Name args db p :
  read_database st = Some db →
  dict_get (VStr Name) db = Some p →
  ∃ t, updatepeer st Name args = Some (Some t) ∧
    ∀ db', read_database (Some t) = Some db' →
      ∃ p', dict_get (VStr Name) db' = Some p'
        ∧ (∀ key, locals_get args key = VNone → get p' key = get p key)
        ∧ ((∀ key, write_cell (locals_get args key) = "" →
                   locals_get args key = VNone) →
           ∀ key, get p key ≠ VNone → get p' key ≠ VNone).
Proof.
  intros Hread Hget. pose proof (read_database_wf _ _ Hread) as Hdb.
  pose proof (dict_get_Some _ _ _ Hget) as Hin.
  pose proof (wf_registry_peer _ _ _ Hdb Hin) as [Hname Hp].
  pose proof (wf_peer_dom _ Hp) as Hdom.
  apply wf_registry_spec in Hdb as [Hnd Hall].
  set (p2 := assign_attributes args p).
  set (db2 := dict_set (VStr Name) p2 db).
  assert (Forall (λ np : value * gmap string value,
                    wf_value TStr np.1 = true
                    ∧ dom np.2 = list_to_set attributes.*1) db2) as Hall2.
  { apply Forall_forall. intros np [->|Hnp]%dict_set_elem.
    - split; [done|]. by apply assign_attributes_dom.
    - rewrite Forall_forall in Hall. destruct (Hall _ Hnp) as [? ?].
      split; [done|]. by apply wf_peer_dom. }
  destruct (write_database_dom db2) as [t Ht].
  { eapply Forall_impl; [exact Hall2|]. by intros ? [_ ?]. }
  exists t. split.
  { unfold updatepeer. rewrite Hread. cbn [mbind option_bind]. rewrite Hget.
    fold p2. fold db2. by rewrite Ht. }
  intros db' Hread'.
  pose proof (reread_written db2 t db' (dict_set_NoDup _ _ _ Hnd) Hall2 Ht Hread') as Hrel.
  destruct (dict_get_related
              (λ q q' : gmap string value,
                 ∀ k ty, (k, ty) ∈ attributes →
                   read_cell ty (write_cell (get q k)) = Some (get q' k))
              db2 db' (VStr Name) p2 Hrel (dict_get_set_eq _ _ _))
    as (p' & Hget' & Hattr).
  exists p'. split; [done|].
  pose proof (read_database_wf _ _ Hread') as Hdb'.
  pose proof (wf_registry_peer _ _ _ Hdb' (dict_get_Some _ _ _ Hget')) as [_ Hp'].
  assert (∀ key, locals_get args key = VNone → get p' key = get p key) as Hframe.
  { intros key Hnone.
    destruct (decide (key ∈ attributes.*1)) as [Hk|Hk].
    - apply list_elem_of_fmap in Hk as ([k ty] & -> & Hk). cbn [fst] in *.
      specialize (Hattr k ty Hk).
      assert (get p2 k = get p k) as Hsame.
      { unfold get, p2. by rewrite assign_attributes_lookup, Hnone. }
      rewrite Hsame in Hattr.
      destruct (wf_peer_lookup p k ty Hp Hk) as (v & _ & Hv & Hwf).
      rewrite Hv in Hattr |- *. rewrite read_write_cell in Hattr by done.
      by injection Hattr.
    - by rewrite (get_outside_dom p' key (wf_peer_dom _ Hp') Hk),
         (get_outside_dom p key Hdom Hk). }
  split; [done|].
  intros Hfull key Hset.
  destruct (decide (locals_get args key = VNone)) as [Hnone|Hsome].
  { by rewrite Hframe. }
  pose proof (locals_get_parameter args key Hsome) as Hk.
  apply list_elem_of_fmap in Hk as ([k ty] & -> & Hk). cbn [fst] in *.
  specialize (Hattr k ty Hk).
  assert (get p2 k = locals_get args k) as Hnew.
  { unfold get, p2. rewrite assign_attributes_lookup.
    by destruct (locals_get args k). }
  rewrite Hnew in Hattr.
  eapply read_cell_not_None; [|exact Hattr].
  intros Hempty. by apply Hsome, Hfull.
Qed.

Lemma updatepeer_frame_witness :
  read_database (Some mesh_table) = Some mesh_registry ∧
  dict_get (VStr "A") mesh_registry
  = Some (default ∅ (dict_get (VStr "A") mesh_registry)) ∧
  ∃ t, updatepeer (Some mesh_table) "A" new_endpoint = Some (Some t) ∧
    ∀ db', read_database (Some t) = Some db' →
      ∃ p', dict_get (VStr "A") db' = Some p'
        ∧ (∀ key, locals_get new_endpoint key = VNone →
                  get p' key = get (default ∅ (dict_get (VStr "A") mesh_registry)) key)
        ∧ ((∀ key, write_cell (locals_get new_endpoint key) = "" →
                   locals_get new_endpoint key = VNone) →
           ∀ key, get (default ∅ (dict_get (VStr "A") mesh_registry)) key ≠ VNone →
                  get p' key ≠ VNone).
Proof.
  assert (read_database (Some mesh_table) = Some mesh_registry) as E by vm_refl.
  assert (dict_get (VStr "A") mesh_registry
          = Some (default ∅ (dict_get (VStr "A") mesh_registry))) as G by vm_refl.
  split; [exact E|]. split; [exact G|].
  exact (updatepeer_frame (Some mesh_table) "A" new_endpoint mesh_registry _ E G).
Defined.

(** C9 as stated fails in its last part: supplying the empty string for
    [Endpoint] stores an empty cell, and the endpoint that was set is
    absent afterwards. *)
Lemma updatepeer_clears_endpoint :
  stored_attribute (Some mesh_table) "A" "Endpoint" = Some (VStr "a.example.com")
  ∧ (st' ← updatepeer (Some mesh_table) "A" clear_endpoint;
     stored_attribute st' "A" "Endpoint") = Some VNone.
Proof. split; vm_refl. Qed.

End update_theorems.

(* ================================================================== *)
(** ** The generator *)
(* ================================================================== *)

Section sections.
Context (env : Env).
Implicit Types (db : list (value * gmap string value)) (me q : gmap string value).

(** Taking a [[Peer]] section apart. *)
Lemma peer_section_Some db psk with_psk peer me p secs :
  peer_section env db psk with_psk peer me p = Some secs →
  ∃ q addr subnets nets,
    dict_get p db = Some q ∧ q !! "Address" = Some addr
    ∧ iter_strs addr = Some subnets
    ∧ mapM (ip_network env) subnets = Some nets
    ∧ if connectable q me then
        ∃ name priv pub ep al ka,
          str p = Some name ∧ q !! "PrivateKey" = Some priv
          ∧ pubkey env priv = Some pub
          ∧ endpoint_line q = Some ep
          ∧ allowed_ips_line q nets = Some al
          ∧ optional_line me "PersistentKeepalive" = Some ka
          ∧ secs = [(p, [nl +:+ "[Peer]" +:+ nl; "# Name: " +:+ name +:+ nl;
                         "PublicKey = " +:+ pub +:+ nl]
                        ++ ep ++ al ++ ka ++ psk_lines psk with_psk peer p)]
      else secs = [].
Proof.
  unfold peer_section, connectable.
  destruct (dict_get p db) as [q|]; [|done]. cbn [mbind option_bind].
  destruct (q !! "Address") as [addr|] eqn:Ha; [|done]. cbn [mbind option_bind].
  destruct (iter_strs addr) as [subnets|] eqn:Hs; [|done]. cbn [mbind option_bind].
  destruct (mapM (ip_network env) subnets) as [nets|] eqn:Hn; [|done].
  cbn [mbind option_bind]. intros H.
  exists q, addr, subnets, nets. do 4 (split; [done|]). revert H.
  destruct (is_not_None (get q "Endpoint") || is_not_None (get me "Endpoint"));
    [|by intros [= <-]].
  destruct (str p) as [name|]; [|done]. cbn [mbind option_bind].
  destruct (q !! "PrivateKey") as [priv|]; [|done]. cbn [mbind option_bind].
  destruct (pubkey env priv) as [pub|] eqn:Hpub; [|done]. cbn [mbind option_bind].
  destruct (endpoint_line q) as [ep|]; [|done]. cbn [mbind option_bind].
  destruct (allowed_ips_line q nets) as [al|]; [|done]. cbn [mbind option_bind].
  destruct (optional_line me "PersistentKeepalive") as [ka|]; [|done].
  cbn [mbind option_bind]. intros [= <-].
  exists name, priv, pub, ep, al, ka. by repeat split.
Qed.

(** Which counterparts a section result names. *)
Lemma peer_section_names db psk with_psk peer me p secs q :
  peer_section env db psk with_psk peer me p = Some secs →
  dict_get p db = Some q →
  secs.*1 = if connectable q me then [p] else [].
Proof.
  intros (q' & ? & ? & ? & Hq & _ & _ & _ & H)%peer_section_Some Hget.
  rewrite Hget in Hq. injection Hq as <-.
  destruct (connectable q me); [|by subst].
  by destruct H as (? & ? & ? & ? & ? & ? & _ & _ & _ & _ & _ & _ & ->).
Qed.

Lemma document_Some db psk with_psk peer c :
  document env db psk with_psk peer = Some c →
  ∃ me sections,
    dict_get peer db = Some me
    ∧ Forall2 (λ p secs, peer_section env db psk with_psk peer me p = Some secs)
              (filter (λ i, i ≠ peer) db.*1) sections
    ∧ conf_peers c = concat sections.
Proof.
  unfold document.
  destruct (str peer) as [name|]; [|done]. cbn [mbind option_bind].
  destruct (dict_get peer db) as [me|]; [|done]. cbn [mbind option_bind].
  destruct (me !! "Address") as [addr|]; [|done]. cbn [mbind option_bind].
  destruct (iter_strs addr) as [addrs|]; [|done]. cbn [mbind option_bind].
  destruct (me !! "PrivateKey") as [priv|]; [|done]. cbn [mbind option_bind].
  destruct (str priv) as [privs|]; [|done]. cbn [mbind option_bind].
  destruct (mapM (optional_line me) _) as [opt|]; [|done].
  cbn [mbind option_bind].
  destruct (mapM (peer_section env db psk with_psk peer me) _) as [sections|] eqn:E;
    [|done].
  cbn [mbind option_bind]. intros [= <-].
  exists me, sections. split; [done|]. split; [by apply mapM_Some|done].
Qed.

(** The sections of a document, counterpart by counterpart. *)
Lemma document_section db psk with_psk peer c Q lines :
  document env db psk with_psk peer = Some c →
  (Q, lines) ∈ conf_peers c →
  ∃ me secs, dict_get peer db = Some me ∧ Q ≠ peer ∧ Q ∈ db.*1
             ∧ peer_section env db psk with_psk peer me Q = Some secs
             ∧ secs = [(Q, lines)].
Proof.
  intros (me & sections & Hme & F & Hc)%document_Some Hin.
  rewrite Hc in Hin. apply list_elem_of_In, in_concat in Hin as (secs & Hsecs & Hin).
  apply list_elem_of_In, list_elem_of_lookup in Hsecs as [i Hi].
  destruct (Forall2_lookup_r _ _ _ _ _ F Hi) as (p & Hp & Hsec).
  apply list_elem_of_lookup_2, list_elem_of_filter in Hp as [Hne Hp].
  pose proof Hsec as (q & ? & ? & ? & _ & _ & _ & _ & H)%peer_section_Some.
  destruct (connectable q me).
  - destruct H as (? & ? & ? & ? & ? & ? & _ & _ & _ & _ & _ & _ & Hs).
    rewrite Hs in Hin.
    apply list_elem_of_In, list_elem_of_singleton in Hin. rewrite <- Hin in Hs.
    injection Hin as -> _. by exists me, secs.
  - subst secs. by apply list_elem_of_In, elem_of_nil in Hin.
Qed.

End sections.

Section lines.
Context (env : Env).
Implicit Types (db : list (value * gmap string value)) (me q : gmap string value).




Lemma genconfig_Some st Name with_psk docs db :
  read_database st = Some db →
  genconfig env st Name with_psk = Some docs →
  ∃ psk,
    (if with_psk
     then ∃ inform calls,
       calculate_psks env 0
         (match Name with Some n => [VStr n] | None => db.*1 end) db
       = Some (psk, inform, calls)
     else psk = [])
    ∧ Forall2 (λ peer c, document env db psk with_psk peer = Some c)
              (match Name with Some n => [VStr n] | None => db.*1 end) docs.
Proof.
  intros Hdb. unfold genconfig. rewrite Hdb. cbn [mbind option_bind].
  destruct with_psk.
  - destruct (calculate_psks env 0 _ db) as [[[psk inform] calls]|] eqn:E; [|done].
    cbn [fmap option_fmap option_map mbind option_bind fst].
    intros H%mapM_Some. exists psk. split; [by exists inform, calls|done].
  - cbn [mbind option_bind]. intros H%mapM_Some. by exists [].
Qed.

End lines.

Section host_bits.





End host_bits.

Section documents.
Context (env : Env).
Implicit Types (db : list (value * gmap string value)) (me q : gmap string value).


(** The counterparts of a document, in order: the other peers of the
    registry that are connectable with its owner. *)
Lemma document_names db psk with_psk peer me c :
  document env db psk with_psk peer = Some c →
  dict_get peer db = Some me →
  (conf_peers c).*1
  = filter (λ Q, connectable (default ∅ (dict_get Q db)) me = true)
           (filter (λ i, i ≠ peer) db.*1).
Proof.
  intros (me' & sections & Hme & F & ->)%document_Some Hget.
  rewrite Hget in Hme. injection Hme as <-.
  induction F as [|p secs l sections Hsec F IH]; [done|].
  cbn [concat]. rewrite fmap_app, IH.
  pose proof Hsec as (q & _ & _ & _ & Hq & _)%peer_section_Some.
  rewrite (peer_section_names env _ _ _ _ _ _ _ q Hsec Hq).
  rewrite filter_cons. rewrite Hq.
  change (default ∅ (Some q)) with q.
  destruct (connectable q me) eqn:E.
  - destruct (decide _) as [_|Hd]; done.
  - destruct (decide _) as [Hd|_]; done.
Qed.


(** The documents of a run on all peers, by position in the registry. *)
Lemma genconfig_all_lookup st with_psk db docs i A pA :
  read_database st = Some db →
  genconfig env st None with_psk = Some docs →
  db !! i = Some (A, pA) →
  ∃ psk cA, docs !! i = Some cA ∧ document env db psk with_psk A = Some cA
            ∧ dict_get A db = Some pA
            ∧ ∀ j B pB cB, db !! j = Some (B, pB) → docs !! j = Some cB →
                           document env db psk with_psk B = Some cB.
Proof.
  intros Hdb Hgen Hi.
  destruct (genconfig_Some env _ _ _ _ _ Hdb Hgen) as (psk & _ & F).
  assert (db.*1 !! i = Some A) as Hi' by (by rewrite list_lookup_fmap, Hi).
  destruct (Forall2_lookup_l _ _ _ _ _ F Hi') as (cA & HcA & Hdoc).
  exists psk, cA. split; [done|]. split; [done|]. split.
  - apply read_database_wf in Hdb. apply wf_registry_get; [done|].
    by eapply list_elem_of_lookup_2.
  - intros j B pB cB Hj HcB.
    assert (db.*1 !! j = Some B) as Hj' by (by rewrite list_lookup_fmap, Hj).
    destruct (Forall2_lookup_l _ _ _ _ _ F Hj') as (cB' & HcB' & ?).
    rewrite HcB in HcB'. by injection HcB' as <-.
Qed.

End documents.

Section totality.
Context (env : Env).
Implicit Types (db : list (value * gmap string value)) (me q : gmap string value).










End totality.

Section generator_claims.
Implicit Types (db : list (value * gmap string value)).







Lemma tuple_mem_spec x (t : value * value * string) :
  tuple_mem x t = true ↔ x = t.1.1 ∨ x = t.1.2 ∨ x = VStr t.2.
Proof.
  unfold tuple_mem. rewrite !orb_true_iff, !bool_decide_eq_true. tauto.
Qed.

(** X1.  In a run over all peers with PSK mode on, every section in the
    document of [P] for counterpart [Q] carries the key that
    [calculate_psks] assigned to the pair of [P] and [Q]. *)
Lemma psk_line_all_peers env st db docs tuples inform calls :
  read_database st = Some db →
  genconfig env st None true = Some docs →
  calculate_psks env 0 db.*1 db = Some (tuples, inform, calls) →
  ∀ i P pP c Q lines,
    db !! i = Some (P, pP) → docs !! i = Some c → (Q, lines) ∈ conf_peers c →
    ∃ k, ((P, Q, k) ∈ tuples ∨ (Q, P, k) ∈ tuples)
         ∧ "PresharedKey = " +:+ k +:+ nl ∈ lines.
Proof.
  intros Hdb Hgen Hpsk i P pP c Q lines Hi Hc Hsec.
  destruct (genconfig_Some env _ _ _ _ _ Hdb Hgen) as (psk & (inf' & calls' & Hpsk') & F).
  rewrite Hpsk in Hpsk'. injection Hpsk' as <- <- <-.
  assert (db.*1 !! i = Some P) as Hi' by (by rewrite list_lookup_fmap, Hi).
  destruct (Forall2_lookup_l _ _ _ _ _ F Hi') as (c' & Hc' & Hdoc).
  rewrite Hc in Hc'. injection Hc' as <-.
  destruct (document_section env _ _ _ _ _ _ _ Hdoc Hsec)
    as (me & secs & _ & Hne & HQ & Hps & ->).
  pose proof Hps as (q & ? & ? & ? & _ & _ & _ & _ & H)%peer_section_Some.
  destruct (connectable q me); [|done].
  destruct H as (name & priv & pub & ep & al & ka & _ & _ & _ & _ & _ & _ & Hlines).
  injection Hlines as ->.
  pose proof (read_database_wf _ _ Hdb) as Hwf.
  rewrite calculate_psks_loaded in Hpsk by done. injection Hpsk as <- _ _.
  set (ks := psk_supply env 0 (pool_of db) (sum_range (length db))).
  assert (length ks = length (combinations db.*1)) as Hl
    by (unfold ks; by rewrite length_psk_supply, length_combinations, length_fmap).
  set (tuples := zip_with (λ (c : value * value) k, (c.1, c.2, k))
                          (combinations db.*1) ks).
  assert (P ∈ db.*1) as HP by (by eapply list_elem_of_lookup_2).
  assert (∃ t, t ∈ tuples ∧ (t.1 = (P, Q) ∨ t.1 = (Q, P))) as (t & Ht & Hpair).
  { destruct (zip_with_fst_snd _ _ Hl) as [Hfst _]. fold tuples in Hfst.
    destruct (combinations_total P Q db.*1 HP HQ) as [Hin|Hin]; [done|..];
      rewrite <- Hfst in Hin; apply list_elem_of_fmap in Hin as (t & Ht & Hin);
      exists t; split; auto. }
  destruct t as [[a b] k]. exists k. split.
  { simpl in Hpair. destruct Hpair as [[= -> ->]|[= -> ->]]; [by left|by right]. }
  rewrite !elem_of_cons, !elem_of_app. do 6 right. unfold psk_lines.
  apply list_elem_of_fmap. exists (a, b, k). split; [done|].
  apply list_elem_of_filter. split; [|apply list_elem_of_filter; split; [|done]].
  - apply tuple_mem_spec. simpl in *.
    destruct Hpair as [[= -> ->]|[= -> ->]]; auto.
  - apply tuple_mem_spec. simpl in *.
    destruct Hpair as [[= -> ->]|[= -> ->]]; auto.
Qed.

(** C2 at the failing input.  Generating for the single peer [A] with
    PSK mode on passes only [A] to [calculate_psks], which then has no
    combination to assign: no section of [A]'s document has a
    [PresharedKey] line, while the run over all peers puts one in every
    section. *)
Theorem genconfig_single_peer_omits_psk :
  psk_marks <$> genconfig env_run1 (Some mesh_table) (Some "A") true
  = Some [[(VStr "B", false); (VStr "C", false)]]
  ∧ psk_marks <$> genconfig env_run1 (Some mesh_table) None true
    = Some [[(VStr "B", true); (VStr "C", true)];
            [(VStr "A", true)]; [(VStr "A", true)]]
  ∧ calculate_psks env_run1 0 [VStr "A"] mesh_registry = Some ([], 0, 0).
Proof. split; [|split]; vm_refl. Qed.

End generator_claims.

(* ================================================================== *)
(** ** Further properties of the generator *)
(* ================================================================== *)

Section generator_extras.
Implicit Types (db : list (value * gmap string value)).

Lemma psk_line_all_peers_witness :
  read_database (Some mesh_table) = Some mesh_registry ∧
  ∃ docs tuples inform calls,
    genconfig env_run1 (Some mesh_table) None true = Some docs ∧
    calculate_psks env_run1 0 mesh_registry.*1 mesh_registry
    = Some (tuples, inform, calls) ∧
    ∀ i P pP c Q lines,
      mesh_registry !! i = Some (P, pP) → docs !! i = Some c →
      (Q, lines) ∈ conf_peers c →
      ∃ k, ((P, Q, k) ∈ tuples ∨ (Q, P, k) ∈ tuples)
           ∧ "PresharedKey = " +:+ k +:+ nl ∈ lines.
Proof.
  assert (read_database (Some mesh_table) = Some mesh_registry) as E by vm_refl.
  assert (genconfig env_run1 (Some mesh_table) None true
          = Some (default [] (genconfig env_run1 (Some mesh_table) None true))) as G
    by vm_refl.
  assert (calculate_psks env_run1 0 mesh_registry.*1 mesh_registry
          = Some ([(VStr "A", VStr "B", "k1"); (VStr "A", VStr "C", "k2");
                   (VStr "B", VStr "C", "run1-0")], 1, 1)) as K by vm_refl.
  split; [exact E|]. do 4 eexists. split; [exact G|]. split; [exact K|].
  exact (psk_line_all_peers env_run1 (Some mesh_table) mesh_registry _ _ _ _ E G K).
Defined.


Lemma filter_names db (l : list (value * gmap string value)) P me :
  Forall (λ np, dict_get np.1 db = Some np.2) l →
  filter (λ Q, connectable (default ∅ (dict_get Q db)) me = true)
         (filter (λ i, i ≠ P) l.*1)
  = (filter (λ np : value * gmap string value,
               np.1 ≠ P ∧ connectable np.2 me = true) l).*1.
Proof.
  induction 1 as [|[n q] l Hget _ IH]; [done|]. simpl in Hget.
  rewrite fmap_cons, !filter_cons. cbn [fst snd].
  destruct (decide (n ≠ P)) as [Hne|Heq].
  - rewrite filter_cons, Hget. change (default ∅ (Some q)) with q.
    destruct (decide (connectable q me = true)) as [Hc|Hc].
    + rewrite decide_True by done. by rewrite fmap_cons, IH.
    + rewrite decide_False by (by intros [_ ?]). done.
  - rewrite decide_False by (by intros [? _]). done.
Qed.

(** X3.  In a run over all peers, the sections of the document of [P] are,
    in the order of the registry, exactly the other peers for which [P]
    or the peer itself has an [Endpoint]: no section for [P] itself and
    none twice. *)
Theorem genconfig_sections_in_order env st with_psk db docs :
  read_database st = Some db →
  genconfig env st None with_psk = Some docs →
  ∀ i P pP c,
    db !! i = Some (P, pP) → docs !! i = Some c →
    ((conf_peers c).*1
     = (filter (λ np : value * gmap string value,
                  np.1 ≠ P ∧ connectable np.2 pP = true) db).*1)
    ∧ (P ∉ (conf_peers c).*1) ∧ NoDup (conf_peers c).*1.
Proof.
  intros Hdb Hgen i P pP c Hi Hc.
  destruct (genconfig_all_lookup env _ _ _ _ _ _ _ Hdb Hgen Hi)
    as (psk & c' & Hc' & Hdoc & Hget & _).
  rewrite Hc in Hc'. injection Hc' as <-.
  pose proof (read_database_wf _ _ Hdb) as Hwf.
  pose proof (proj1 (wf_registry_spec db) Hwf) as [Hnd _].
  assert ((conf_peers c).*1
          = (filter (λ np : value * gmap string value,
                       np.1 ≠ P ∧ connectable np.2 pP = true) db).*1) as Hnames.
  { rewrite (document_names env _ _ _ _ _ _ Hdoc Hget). apply filter_names.
    apply Forall_forall. intros [n q] Hin. by apply wf_registry_get. }
  split; [done|]. rewrite Hnames. split.
  - intros Hin. apply list_elem_of_fmap in Hin as ([n q] & -> & Hin).
    apply list_elem_of_filter in Hin as [[Hne _] _]. done.
  - eapply sublist_NoDup; [exact Hnd|]. apply fmap_sublist, sublist_filter.
Qed.

Lemma genconfig_sections_in_order_witness :
  read_database (Some mesh_table) = Some mesh_registry ∧
  ∃ docs, genconfig env_run1 (Some mesh_table) None false = Some docs ∧
  ∀ i P pP c,
    mesh_registry !! i = Some (P, pP) → docs !! i = Some c →
    ((conf_peers c).*1
     = (filter (λ np : value * gmap string value,
                  np.1 ≠ P ∧ connectable np.2 pP = true) mesh_registry).*1)
    ∧ (P ∉ (conf_peers c).*1) ∧ NoDup (conf_peers c).*1.
Proof.
  assert (read_database (Some mesh_table) = Some mesh_registry) as E by vm_refl.
  assert (genconfig env_run1 (Some mesh_table) None false
          = Some (default [] (genconfig env_run1 (Some mesh_table) None false))) as G
    by vm_refl.
  split; [exact E|]. eexists. split; [exact G|].
  exact (genconfig_sections_in_order env_run1 (Some mesh_table) false
           mesh_registry _ E G).
Defined.



End generator_extras.

(* ================================================================== *)
(** ** Further properties of the storage *)
(* ================================================================== *)

Section storage_extras.
Implicit Types (db : list (value * gmap string value)) (p : gmap string value).

(** X5.  What [read_database] returns is typed by [KEY_TYPE]: the names are
    pairwise different, each [None] or a non-empty string; every peer
    has exactly the sixteen attribute keys, each holding [None] or a
    well-formed value of the column's type. *)
Theorem read_database_typed st db :
  read_database st = Some db →
  NoDup db.*1
  ∧ ∀ n p, (n, p) ∈ db →
      (n = VNone ∨ ∃ s, n = VStr s ∧ s ≠ "")
      ∧ dom p = list_to_set attributes.*1
      ∧ ∀ k ty, (k, ty) ∈ attributes →
          ∃ v, p !! k = Some v ∧ wf_value ty v = true.
Proof.
  intros Hwf%read_database_wf.
  pose proof (proj1 (wf_registry_spec db) Hwf) as [Hnd _].
  split; [done|]. intros n p Hin.
  destruct (wf_registry_peer _ _ _ Hwf Hin) as [Hn Hp]. split; [|split].
  - destruct n as [|s| | |]; try done; [by left|right].
    exists s. split; [done|]. by apply eqb_empty, negb_true_iff.
  - by apply wf_peer_dom.
  - intros k ty Hk. destruct (wf_peer_lookup p k ty Hp Hk) as (v & ? & _ & ?).
    by exists v.
Qed.

Lemma read_database_typed_witness :
  read_database (Some mesh_table) = Some mesh_registry ∧
  NoDup mesh_registry.*1
  ∧ ∀ n p, (n, p) ∈ mesh_registry →
      (n = VNone ∨ ∃ s, n = VStr s ∧ s ≠ "")
      ∧ dom p = list_to_set attributes.*1
      ∧ ∀ k ty, (k, ty) ∈ attributes →
          ∃ v, p !! k = Some v ∧ wf_value ty v = true.
Proof.
  assert (read_database (Some mesh_table) = Some mesh_registry) as E by vm_refl.
  split; [exact E|].
  exact (read_database_typed (Some mesh_table) mesh_registry E).
Defined.




End storage_extras.

Section storage_operations.
Implicit Types (db : list (value * gmap string value)) (p : gmap string value).

Lemma canonical_write ty v :
  wf_value ty v = true → canonical_cell ty (write_cell v) = true.
Proof.
  destruct v as [|s|z|b|l], ty; try done; simpl; intros _.
  - rewrite int_of_str_of_int, String.eqb_refl. apply orb_true_r.
  - by destruct b.
Qed.

Lemma canonical_row_written n vs :
  length vs = length attributes →
  wf_value TStr n = true →
  forallb (λ kv : (string * ktype) * value, wf_value kv.1.2 kv.2)
          (zip attributes vs) = true →
  canonical_row (write_cell <$> n :: vs) = true.
Proof.
  intros Hlen Hn Hvs. unfold canonical_row.
  rewrite bool_decide_eq_true_2 by (rewrite length_fmap; simpl; by rewrite Hlen).
  explode vs Hlen.
  cbn [zip zip_with attributes KEY_TYPE tail forallb fst snd] in Hvs.
  repeat (apply andb_true_iff in Hvs as [?%canonical_write Hvs]).
  apply canonical_write in Hn.
  cbn [fmap list_fmap zip zip_with KEY_TYPE forallb fst snd andb].
  repeat match goal with H : canonical_cell _ _ = true |- _ => rewrite H; clear H end.
  done.
Qed.

Lemma write_name_inj n1 n2 :
  wf_value TStr n1 = true → wf_value TStr n2 = true →
  write_cell n1 = write_cell n2 → n1 = n2.
Proof.
  intros H1 H2 Hw. apply read_write_cell in H1, H2. rewrite Hw in H1. congruence.
Qed.

(** X7.  Saving a registry that was loaded gives a table in canonical
    spelling that loads as the same registry; saving once more
    reproduces that table. *)
Theorem save_normalises x R :
  read_database (Some x) = Some R →
  ∃ t, write_database R = Some t
       ∧ canonical_table t = true
       ∧ read_database (Some t) = Some R
       ∧ (R' ← read_database (Some t); write_database R') = Some t.
Proof.
  intros Hwf%read_database_wf.
  destruct (registry_load_save R Hwf) as (t & Hw & Hr).
  exists t. split; [done|]. split; [|split; [done|]].
  2:{ rewrite Hr. cbn [mbind option_bind]. done. }
  apply wf_registry_spec in Hwf as [Hnd Hall].
  apply mapM_Some in Hw. unfold canonical_table. apply andb_true_iff. split.
  - apply forallb_forall. intros cells Hin%list_elem_of_In.
    apply list_elem_of_lookup in Hin as [i Hi].
    destruct (Forall2_lookup_r _ _ _ _ _ Hw Hi) as ([n p] & Hnp & Hrow).
    rewrite Forall_forall in Hall.
    destruct (Hall (n, p)) as [Hn Hp]; [by eapply list_elem_of_lookup_2|].
    simpl in Hrow, Hn, Hp.
    assert (cells = write_cell <$> n :: (get p <$> attributes.*1)) as ->
      by (rewrite write_row_dom in Hrow by (by apply wf_peer_dom); congruence).
    apply canonical_row_written; [done..|].
    rewrite <- wf_peer_of by done. by rewrite <- wf_peer_as_list.
  - apply bool_decide_eq_true.
    assert (row_name <$> t = write_cell <$> R.*1) as ->.
    { clear Hnd Hr. revert Hall.
      induction Hw as [|[n p] cells R t Hrow Hw IH]; intros Hall; [done|].
      apply Forall_cons in Hall as [[Hn Hp] Hall]. simpl in Hrow, Hp.
      assert (cells = write_cell <$> n :: (get p <$> attributes.*1)) as ->
        by (rewrite write_row_dom in Hrow by (by apply wf_peer_dom); congruence).
      rewrite !fmap_cons, IH by done. done. }
    clear Hw Hr. induction Hall as [|[n p] R [Hn _] Hall IH]; csimpl; [constructor|].
    apply NoDup_cons in Hnd as [Hfresh Hnd]. constructor; [|by apply IH].
    intros Hin. apply Hfresh. apply list_elem_of_fmap in Hin as (n' & Heq & Hin).
    assert (wf_value TStr n' = true) as Hn'.
    { apply list_elem_of_fmap in Hin as ([n2 p2] & -> & Hin2).
      rewrite Forall_forall in Hall. by destruct (Hall _ Hin2). }
    by rewrite (write_name_inj n n' Hn Hn' Heq).
Qed.

Lemma save_normalises_witness :
  read_database (Some lowercase_table)
  = Some (default [] (read_database (Some lowercase_table))) ∧
  ∃ t, write_database (default [] (read_database (Some lowercase_table))) = Some t
       ∧ canonical_table t = true
       ∧ read_database (Some t)
         = Some (default [] (read_database (Some lowercase_table)))
       ∧ (R' ← read_database (Some t); write_database R') = Some t.
Proof.
  assert (read_database (Some lowercase_table)
          = Some (default [] (read_database (Some lowercase_table)))) as E
    by vm_refl.
  split; [exact E|]. exact (save_normalises lowercase_table _ E).
Defined.

Lemma wf_registry_filter db (P : value * gmap string value → Prop)
    `{∀ x, Decision (P x)} :
  wf_registry db = true → wf_registry (filter P db) = true.
Proof.
  intros [Hnd Hall]%wf_registry_spec. apply wf_registry_spec. split.
  - eapply sublist_NoDup; [exact Hnd|]. apply fmap_sublist, sublist_filter.
  - apply Forall_forall. intros x [_ Hx]%list_elem_of_filter.
    rewrite Forall_forall in Hall. by apply Hall.
Qed.

(** X8.  [delpeer] of a name that is not in the database leaves the file as
    it is; of a name that is, it rewrites the file so that it loads as
    the registry without that peer, the others unchanged and in order. *)
Theorem delpeer_effect st Name db :
  read_database st = Some db →
  (dict_get (VStr Name) db = None → delpeer st Name = Some st)
  ∧ (is_Some (dict_get (VStr Name) db) →
     ∃ t, delpeer st Name = Some (Some t)
          ∧ read_database (Some t)
            = Some (filter (λ np : value * gmap string value, np.1 ≠ VStr Name) db)).
Proof.
  intros Hdb. unfold delpeer. rewrite Hdb. cbn [mbind option_bind]. split.
  - by intros ->.
  - intros [p ->].
    destruct (registry_load_save
                (filter (λ np : value * gmap string value, np.1 ≠ VStr Name) db))
      as (t & Hw & Hr).
    { apply wf_registry_filter. by eapply read_database_wf. }
    exists t. by rewrite Hw.
Qed.

Lemma delpeer_effect_witness :
  read_database (Some mesh_table) = Some mesh_registry ∧
  (dict_get (VStr "B") mesh_registry = None →
   delpeer (Some mesh_table) "B" = Some (Some mesh_table))
  ∧ is_Some (dict_get (VStr "B") mesh_registry)
  ∧ ∃ t, delpeer (Some mesh_table) "B" = Some (Some t)
         ∧ read_database (Some t)
           = Some (filter (λ np : value * gmap string value, np.1 ≠ VStr "B")
                          mesh_registry).
Proof.
  assert (read_database (Some mesh_table) = Some mesh_registry) as E by vm_refl.
  assert (is_Some (dict_get (VStr "B") mesh_registry)) as S.
  { exists (default ∅ (dict_get (VStr "B") mesh_registry)). vm_refl. }
  split; [exact E|]. split.
  - exact (proj1 (delpeer_effect (Some mesh_table) "B" mesh_registry E)).
  - split; [exact S|].
    exact (proj2 (delpeer_effect (Some mesh_table) "B" mesh_registry E) S).
Defined.





End storage_operations.

Section addpeer_facts.
Implicit Types (db : list (value * gmap string value)) (p : gmap string value).





End addpeer_facts.

(* ================================================================== *)
(** ** Further properties of the initializer *)
(* ================================================================== *)

Section init_extras.
Implicit Types (db rest : list (value * gmap string value)) (p : gmap string value).

Lemma fill_up_prefix n psks add :
  ∃ extra, (fill_up n psks add).1 = psks ++ extra
           ∧ length extra ≤ n ∧ extra ⊆ add ∧ (fill_up n psks add).2 ⊆ add.
Proof.
  revert psks add. induction n as [|n IH]; intros psks add; cbn [fill_up].
  { exists []. cbn [fst snd]. rewrite app_nil_r. split; [done|].
    split; [simpl; lia|]. split; [apply list_subseteq_nil|done]. }
  destruct (pop add) as [[x r]|] eqn:E.
  - apply pop_Some in E as ->.
    destruct (IH (psks ++ [x]) r) as (extra & -> & Hl & Hsub & Hrest).
    exists (x :: extra). rewrite <- app_assoc. split; [done|]. split; [simpl; lia|].
    split.
    + intros y [->|Hy]%elem_of_cons; apply elem_of_app;
        [right; by apply list_elem_of_singleton|left; by apply Hsub].
    + intros y Hy. apply elem_of_app. left. by apply Hrest.
  - destruct (IH psks add) as (extra & -> & Hl & Hsub & Hrest).
    exists extra. split; [done|]. split; [lia|done].
Qed.

(** One turn of the loop of [init] on a loaded peer. *)
Lemma init_peer_spec env with_psk N i p add calls :
  wf_peer p = true →
  ∃ p' add' calls',
    init_peer env with_psk N i p add calls = Some (p', add', calls')
    ∧ calls' = (if is_not_None (get p "PrivateKey") then calls else S calls)
    ∧ add' ⊆ add
    ∧ get p' "ListenPort"
      = (if is_not_None (get p "ListenPort") then get p "ListenPort" else VInt 51820)
    ∧ get p' "PrivateKey"
      = (if is_not_None (get p "PrivateKey") then get p "PrivateKey"
         else VStr (genkey env calls))
    ∧ (∀ k, k ≠ "ListenPort" → k ≠ "PrivateKey" → k ≠ "PresharedKeys" →
            p' !! k = p !! k)
    ∧ (if with_psk
       then ∃ extra, p' !! "PresharedKeys" = Some (VList (inventory p ++ extra))
                     ∧ length extra ≤ N - 1 - i - length (inventory p)
                     ∧ extra ⊆ add
       else p' !! "PresharedKeys" = p !! "PresharedKeys")
    ∧ dom p' = dom p.
Proof.
  intros Hp. destruct (wf_peer_psk p Hp) as (v & Hv & Hinv & _).
  unfold init_peer.
  set (p1 := if is_not_None (get p "ListenPort") then p
             else <["ListenPort":=VInt 51820]> p).
  assert (get p1 "ListenPort"
          = if is_not_None (get p "ListenPort") then get p "ListenPort" else VInt 51820)
    as Hlp.
  { unfold p1. destruct (is_not_None (get p "ListenPort")); [done|].
    unfold get. by rewrite lookup_insert_eq. }
  assert (∀ k, k ≠ "ListenPort" → p1 !! k = p !! k) as Hp1.
  { intros k Hk. unfold p1. destruct (is_not_None (get p "ListenPort")); [done|].
    by rewrite lookup_insert_ne. }
  assert (get p1 "PrivateKey" = get p "PrivateKey") as Hpk
    by (unfold get; by rewrite Hp1).
  rewrite Hpk.
  set (p2 := if is_not_None (get p "PrivateKey") then p1
             else <["PrivateKey":=VStr (genkey env calls)]> p1).
  set (calls2 := if is_not_None (get p "PrivateKey") then calls else S calls).
  assert ((if is_not_None (get p "PrivateKey") then (p1, calls)
           else (<["PrivateKey":=VStr (genkey env calls)]> p1, S calls))
          = (p2, calls2)) as ->
    by (unfold p2, calls2; by destruct (is_not_None (get p "PrivateKey"))).
  assert (get p2 "PrivateKey"
          = if is_not_None (get p "PrivateKey") then get p "PrivateKey"
            else VStr (genkey env calls)) as Hpk2.
  { unfold p2. destruct (is_not_None (get p "PrivateKey")); [done|].
    unfold get. by rewrite lookup_insert_eq. }
  assert (∀ k, k ≠ "ListenPort" → k ≠ "PrivateKey" → p2 !! k = p !! k) as Hp2.
  { intros k Hk1 Hk2. unfold p2. destruct (is_not_None (get p "PrivateKey")); [by apply Hp1|].
    rewrite lookup_insert_ne by done. by apply Hp1. }
  assert (get p2 "ListenPort" = get p1 "ListenPort") as Hlp2.
  { unfold p2, get. destruct (is_not_None (default VNone (p !! "PrivateKey"))); [done|].
    by rewrite lookup_insert_ne. }
  assert (∀ k ty x (q : gmap string value),
            (k, ty) ∈ attributes → dom q = dom p → dom (<[k:=x]> q) = dom p) as Hins.
  { intros k ty x q Hk Hq. rewrite <- Hq. apply dom_insert_lookup_L.
    apply elem_of_dom. rewrite Hq.
    destruct (wf_peer_lookup p k ty Hp Hk) as (w & Hw & _).
    apply elem_of_dom. by rewrite Hw. }
  assert (dom p1 = dom p) as Hd1.
  { unfold p1. destruct (is_not_None (get p "ListenPort")); [done|].
    apply (Hins _ TInt); [|done]. apply list_elem_of_In. vm_compute. tauto. }
  assert (dom p2 = dom p) as Hd2.
  { unfold p2. destruct (is_not_None (get p "PrivateKey")); [done|].
    apply (Hins _ TStr); [|done]. apply list_elem_of_In. vm_compute. tauto. }
  destruct with_psk.
  - rewrite Hp2, Hv by done. cbn [mbind option_bind]. rewrite Hinv.
    cbn [mbind option_bind].
    replace (Z.to_nat (Z.of_nat N - 1 - Z.of_nat i - Z.of_nat (length (inventory p))))
      with (N - 1 - i - length (inventory p)) by lia.
    destruct (fill_up_prefix (N - 1 - i - length (inventory p)) (inventory p) add)
      as (extra & Hk & Hl & Hsub & Hrest).
    destruct (fill_up _ _ _) as [keys rest]. cbn [fst snd] in Hk, Hrest. subst keys.
    do 3 eexists. split; [done|]. split; [done|]. split; [done|].
    split; [unfold get; rewrite lookup_insert_ne by done; exact (eq_trans Hlp2 Hlp)|].
    split; [unfold get; rewrite lookup_insert_ne by done; exact Hpk2|].
    split; [intros k ???; rewrite lookup_insert_ne by done; by apply Hp2|].
    split; [exists extra; by rewrite lookup_insert_eq|].
    apply (Hins _ TStr); [|done]. apply list_elem_of_In. vm_compute. tauto.
  - do 3 eexists. split; [done|]. split; [done|]. split; [done|].
    split; [exact (eq_trans Hlp2 Hlp)|]. split; [exact Hpk2|].
    split; [intros k ???; by apply Hp2|]. split; [by apply Hp2|]. done.
Qed.


Lemma init_peers_spec env with_psk N i rest add calls :
  Forall (λ np, wf_peer np.2 = true) rest →
  ∃ db' calls',
    init_peers env with_psk N i rest add calls = Some (db', calls')
    ∧ calls ≤ calls'
    ∧ db'.*1 = rest.*1
    ∧ Forall (λ np, dom np.2 = list_to_set attributes.*1) db'
    ∧ ∀ k np np', rest !! k = Some np → db' !! k = Some np' →
        initialised env with_psk N add calls calls' (i + k) np.2 np'.2.
Proof.
  intros Hwf. revert i add calls.
  induction Hwf as [|[n p] rest Hp _ IH]; intros i add calls.
  { do 2 eexists. split; [done|]. split; [done|]. split; [done|].
    split; [done|]. by intros k ?? ?. }
  simpl in Hp.
  destruct (init_peer_spec env with_psk N i p add calls Hp)
    as (p' & add' & calls1 & Hpeer & Hc & Hadd & Hlp & Hpk & Hframe & Hpsk & Hdom).
  destruct (IH (S i) add' calls1) as (db' & calls' & Hrest & Hc' & Hnames & Hdoms & Hall).
  assert (calls ≤ calls1 ∧ (is_not_None (get p "PrivateKey") = false → calls < calls1))
    as [Hle Hlt] by (rewrite Hc; destruct (is_not_None (get p "PrivateKey")); split; (lia || done)).
  cbn [init_peers]. rewrite Hpeer. cbn [mbind option_bind]. rewrite Hrest.
  do 2 eexists. split; [done|]. cbn [fst snd]. split; [lia|].
  split; [csimpl; by rewrite Hnames|].
  split; [constructor; [cbn [snd]; rewrite Hdom; by apply wf_peer_dom|done]|].
  intros [|k] np np' Hk Hk'; simpl in Hk, Hk'.
  - injection Hk as <-. injection Hk' as <-. cbn [snd].
    replace (i + 0) with i by lia.
    split; [done|]. split.
    { rewrite Hpk. destruct (is_not_None (get p "PrivateKey")) eqn:Epk; [done|].
      exists calls. split; [|done]. specialize (Hlt eq_refl). lia. }
    split; [done|]. done.
  - destruct (Hall k np np' Hk Hk') as (H1 & H2 & H3 & H4).
    replace (i + S k) with (S i + k) by lia.
    split; [done|]. split.
    { destruct (is_not_None (get np.2 "PrivateKey")); [done|].
      destruct H2 as (j & ? & ?). exists j. split; [lia|done]. }
    split; [done|].
    destruct with_psk; [|done].
    destruct H4 as (extra & ? & ? & ?). exists extra.
    split; [done|]. split; [done|]. by etrans.
Qed.


(** A registry that lacks nothing passes through the loop unchanged. *)
Lemma init_peers_fixed env N i rest add calls :
  Forall (λ np, is_not_None (get np.2 "ListenPort") = true
                ∧ is_not_None (get np.2 "PrivateKey") = true) rest →
  init_peers env false N i rest add calls = Some (rest, calls).
Proof.
  intros Hall. revert i.
  induction Hall as [|[n p] rest [H1 H2] _ IH]; intros i; [done|].
  simpl in H1, H2. cbn [init_peers]. unfold init_peer.
  rewrite H1, H2. cbn [mbind option_bind]. by rewrite IH.
Qed.

Lemma address_check db :
  forallb (λ np : value * gmap string value, is_not_None (get np.2 "Address")) db = false
  ↔ ∃ np, np ∈ db ∧ get np.2 "Address" = VNone.
Proof.
  induction db as [|np db IH]; cbn [forallb].
  { split; [done|]. by intros (? & ?%elem_of_nil & _). }
  rewrite andb_false_iff, IH. split.
  - intros [H|(x & Hx & Hx')].
    + exists np. split; [by left|]. by destruct (get np.2 "Address").
    + exists x. split; [by right|done].
  - intros (x & [->|Hx]%elem_of_cons & Hx').
    + left. by rewrite Hx'.
    + right. by exists x.
Qed.

(** The in-memory result of [init] on a loaded registry in which every
    peer has an [Address]. *)
Lemma init_database_spec env (with_psk : bool) db :
  wf_registry db = true →
  forallb (λ np : value * gmap string value, is_not_None (get np.2 "Address")) db = true →
  let lo := if with_psk then sum_range (length db) - length (pool_of db) else 0 in
  ∃ db' calls,
    init_database env with_psk db = Some (db', calls)
    ∧ db'.*1 = db.*1
    ∧ Forall (λ np, dom np.2 = list_to_set attributes.*1) db'
    ∧ ∀ k np np', db !! k = Some np → db' !! k = Some np' →
        initialised env with_psk (length db) (genkey env <$> seq 0 lo) lo calls k np.2 np'.2.
Proof.
  intros Hwf Haddr lo. pose proof Hwf as [_ Hall]%wf_registry_spec.
  assert (Forall (λ np : value * gmap string value, wf_peer np.2 = true) db) as Hps
    by (eapply Forall_impl; [exact Hall|]; by intros ? [_ ?]).
  unfold init_database. rewrite Haddr. destruct with_psk.
  - rewrite (psk_present_loaded db Hwf). cbn [mbind option_bind].
    replace (Z.to_nat (Z.of_nat (sum_range (length db)) - Z.of_nat (length (pool_of db))))
      with lo by (unfold lo; lia).
    destruct (init_peers_spec env true (length db) 0 db (genkey env <$> seq 0 lo) lo Hps)
      as (db' & calls & -> & _ & ? & ? & ?).
    by exists db', calls.
  - destruct (init_peers_spec env false (length db) 0 db [] 0 Hps)
      as (db' & calls & -> & _ & ? & ? & ?).
    by exists db', calls.
Qed.

(** X11.  [init] on an existing database that can be read stops before writing
    anything exactly when some peer has no [Address]; otherwise it always
    writes. *)
Theorem init_requires_address env with_psk t db :
  read_database (Some t) = Some db →
  init env with_psk (Some t) = None
  ↔ ∃ np, np ∈ db ∧ get np.2 "Address" = VNone.
Proof.
  intros Hr. pose proof (read_database_wf _ _ Hr) as Hwf.
  rewrite <- address_check. unfold init. rewrite Hr. cbn [mbind option_bind].
  destruct (forallb (λ np : value * gmap string value,
                        is_not_None (get np.2 "Address")) db) eqn:Haddr.
  - destruct (init_database_spec env with_psk db Hwf Haddr)
      as (db' & calls & -> & _ & Hdom & _).
    cbn [mbind option_bind fst].
    destruct (write_database_dom db' Hdom) as [t' ->]. done.
  - unfold init_database. by rewrite Haddr.
Qed.

Lemma init_requires_address_witness :
  read_database (Some no_address_table) = Some no_address_registry
  ∧ (init env_run1 true (Some no_address_table) = None
     ↔ ∃ np, np ∈ no_address_registry ∧ get np.2 "Address" = VNone).
Proof.
  assert (read_database (Some no_address_table) = Some no_address_registry) as H
    by vm_refl.
  split; [exact H|]. exact (init_requires_address env_run1 true _ _ H).
Defined.

(** X12.  [init] keeps the names and their order, sets [ListenPort] to 51820
    and [PrivateKey] to a freshly generated key where they are missing,
    and leaves every value that is present, and every other attribute
    apart from [PresharedKeys], as it was. *)
Theorem init_fills_defaults env with_psk st db :
  read_database st = Some db →
  (∀ np, np ∈ db → get np.2 "Address" ≠ VNone) →
  ∃ db' calls,
    init_database env with_psk db = Some (db', calls)
    ∧ db'.*1 = db.*1
    ∧ ∀ k n p p', db !! k = Some (n, p) → db' !! k = Some (n, p') →
        get p' "ListenPort"
        = (if is_not_None (get p "ListenPort") then get p "ListenPort" else VInt 51820)
        ∧ (if is_not_None (get p "PrivateKey")
           then get p' "PrivateKey" = get p "PrivateKey"
           else ∃ j, j < calls ∧ get p' "PrivateKey" = VStr (genkey env j))
        ∧ ∀ a, a ≠ "ListenPort" → a ≠ "PrivateKey" → a ≠ "PresharedKeys" →
               p' !! a = p !! a.
Proof.
  intros Hr Haddr. pose proof (read_database_wf _ _ Hr) as Hwf.
  assert (forallb (λ np : value * gmap string value,
                     is_not_None (get np.2 "Address")) db = true) as Hb.
  { destruct (forallb (λ np : value * gmap string value,
                        is_not_None (get np.2 "Address")) db) eqn:E; [done|].
    apply address_check in E as (np & Hin & Hnone). by destruct (Haddr np Hin). }
  destruct (init_database_spec env with_psk db Hwf Hb) as (db' & calls & Hi & Hn & _ & Hall).
  exists db', calls. split; [done|]. split; [done|].
  intros k n p p' Hk Hk'. destruct (Hall k _ _ Hk Hk') as (H1 & H2 & H3 & _).
  cbn [snd] in *. split; [done|]. split; [|done].
  destruct (is_not_None (get p "PrivateKey")); [done|].
  destruct H2 as (j & ? & ?). exists j. split; [lia|done].
Qed.

Lemma init_fills_defaults_witness :
  read_database (Some mesh_table) = Some mesh_registry
  ∧ (∀ np, np ∈ mesh_registry → get np.2 "Address" ≠ VNone)
  ∧ ∃ db' calls,
      init_database env_run1 false mesh_registry = Some (db', calls)
      ∧ db'.*1 = mesh_registry.*1
      ∧ ∀ k n p p', mesh_registry !! k = Some (n, p) → db' !! k = Some (n, p') →
          get p' "ListenPort"
          = (if is_not_None (get p "ListenPort") then get p "ListenPort" else VInt 51820)
          ∧ (if is_not_None (get p "PrivateKey")
             then get p' "PrivateKey" = get p "PrivateKey"
             else ∃ j, j < calls ∧ get p' "PrivateKey" = VStr (genkey env_run1 j))
          ∧ ∀ a, a ≠ "ListenPort" → a ≠ "PrivateKey" → a ≠ "PresharedKeys" →
                 p' !! a = p !! a.
Proof.
  assert (read_database (Some mesh_table) = Some mesh_registry) as H by vm_refl.
  assert (∀ np, np ∈ mesh_registry → get np.2 "Address" ≠ VNone) as Ha.
  { intros np Hin.
    assert (forallb (λ np : value * gmap string value,
                       is_not_None (get np.2 "Address")) mesh_registry = true) as Hb
      by vm_refl.
    rewrite forallb_forall in Hb. apply list_elem_of_In, Hb in Hin.
    by destruct (get np.2 "Address"). }
  split; [exact H|]. split; [exact Ha|].
  exact (init_fills_defaults env_run1 false _ _ H Ha).
Defined.

(** X13.  With pre-shared keys, [init] never drops or reorders a key a peer
    already holds: the new inventory is the old one followed by keys
    taken from those generated in this run, and no more of them than the
    peer's quota leaves room for.  Without, [PresharedKeys] is untouched. *)
Theorem init_keeps_keys env (with_psk : bool) st db db' calls :
  read_database st = Some db →
  init_database env with_psk db = Some (db', calls) →
  ∀ k n p p', db !! k = Some (n, p) → db' !! k = Some (n, p') →
    if with_psk
    then ∃ extra,
           p' !! "PresharedKeys" = Some (VList (inventory p ++ extra))
           ∧ length extra ≤ length db - 1 - k - length (inventory p)
           ∧ extra ⊆ genkey env <$> seq 0 (sum_range (length db) - length (pool_of db))
    else p' !! "PresharedKeys" = p !! "PresharedKeys".
Proof.
  intros Hr Hi k n p p' Hk Hk'. pose proof (read_database_wf _ _ Hr) as Hwf.
  assert (forallb (λ np : value * gmap string value,
                     is_not_None (get np.2 "Address")) db = true) as Hb.
  { destruct (forallb (λ np : value * gmap string value,
                        is_not_None (get np.2 "Address")) db) eqn:E; [done|].
    unfold init_database in Hi. by rewrite E in Hi. }
  destruct (init_database_spec env with_psk db Hwf Hb) as (db2 & calls2 & Hi2 & _ & _ & Hall).
  rewrite Hi in Hi2. injection Hi2 as <- <-.
  destruct (Hall k _ _ Hk Hk') as (_ & _ & _ & H4). cbn [snd] in H4.
  by destruct with_psk.
Qed.

Lemma init_keeps_keys_witness :
  ∃ db' calls,
    read_database (Some mesh_table) = Some mesh_registry
    ∧ init_database env_run1 true mesh_registry = Some (db', calls)
    ∧ ∀ k n p p', mesh_registry !! k = Some (n, p) → db' !! k = Some (n, p') →
        ∃ extra,
          p' !! "PresharedKeys" = Some (VList (inventory p ++ extra))
          ∧ length extra ≤ length mesh_registry - 1 - k - length (inventory p)
          ∧ extra ⊆ genkey env_run1
                     <$> seq 0 (sum_range (length mesh_registry)
                                - length (pool_of mesh_registry)).
Proof.
  assert (read_database (Some mesh_table) = Some mesh_registry) as H by vm_refl.
  assert (init_database env_run1 true mesh_registry
          = Some (default ([], 0) (init_database env_run1 true mesh_registry))) as Hi
    by vm_refl.
  do 2 eexists. split; [exact H|]. split; [exact Hi|].
  exact (init_keeps_keys env_run1 true _ _ _ _ H Hi).
Defined.

(** X14.  [init] without pre-shared keys on a database in which every peer has
    an [Address], a [ListenPort] and a [PrivateKey] generates no key and
    stores a table that loads as the same registry. *)
Theorem init_complete_database env t db :
  read_database (Some t) = Some db →
  (∀ np, np ∈ db → get np.2 "Address" ≠ VNone
                   ∧ get np.2 "ListenPort" ≠ VNone
                   ∧ get np.2 "PrivateKey" ≠ VNone) →
  init_database env false db = Some (db, 0)
  ∧ ∃ t', init env false (Some t) = Some (Some t')
          ∧ read_database (Some t') = Some db.
Proof.
  intros Hr Hall. pose proof (read_database_wf _ _ Hr) as Hwf.
  assert (init_database env false db = Some (db, 0)) as Hi.
  { unfold init_database.
    destruct (forallb (λ np : value * gmap string value,
                        is_not_None (get np.2 "Address")) db) eqn:E.
    - apply init_peers_fixed. apply Forall_forall. intros np Hin.
      destruct (Hall np Hin) as (_ & H1 & H2).
      split; [by destruct (get np.2 "ListenPort")|by destruct (get np.2 "PrivateKey")].
    - apply address_check in E as (np & Hin & Hnone).
      by destruct (Hall np Hin) as (? & _). }
  split; [done|].
  destruct (registry_load_save db Hwf) as (t' & Hw & Hr').
  exists t'. split; [|done].
  unfold init. rewrite Hr. cbn [mbind option_bind]. rewrite Hi.
  cbn [mbind option_bind fst]. by rewrite Hw.
Qed.

Lemma init_complete_database_witness :
  read_database (Some full_table) = Some full_registry
  ∧ init_database env_run1 false full_registry = Some (full_registry, 0)
  ∧ ∃ t', init env_run1 false (Some full_table) = Some (Some t')
          ∧ read_database (Some t') = Some full_registry.
Proof.
  assert (read_database (Some full_table) = Some full_registry) as H by vm_refl.
  split; [exact H|].
  apply (init_complete_database env_run1 full_table full_registry H).
  intros np Hin.
  assert (forallb (λ np : value * gmap string value,
                     is_not_None (get np.2 "Address")
                     && is_not_None (get np.2 "ListenPort")
                     && is_not_None (get np.2 "PrivateKey")) full_registry = true) as Hb
    by vm_refl.
  rewrite forallb_forall in Hb. apply list_elem_of_In, Hb in Hin.
  apply andb_true_iff in Hin as [[H1 H2]%andb_true_iff H3].
  split; [by destruct (get np.2 "Address")|].
  split; [by destruct (get np.2 "ListenPort")|by destruct (get np.2 "PrivateKey")].
Defined.

End init_extras.

(* ================================================================== *)
(** ** The peer listing *)
(* ================================================================== *)

Section showpeers_facts.
Implicit Types (db listed : list (value * gmap string value)) (p : gmap string value).

Lemma add_keys_spec p keys fs :
  let fs' := foldl (λ (fs : list string) key,
                      if is_not_None (get p key) && negb (bool_decide (key ∈ fs))
                      then fs ++ [key] else fs) fs keys in
  (∃ more, fs' = fs ++ more)
  ∧ (NoDup fs → NoDup fs')
  ∧ ∀ k, k ∈ fs' ↔ k ∈ fs ∨ (k ∈ keys ∧ get p k ≠ VNone).
Proof.
  revert fs. induction keys as [|key keys IH]; intros fs; cbn [foldl].
  { split; [exists []; by rewrite app_nil_r|]. split; [done|].
    intros k. split; [by left|]. by intros [?|[?%elem_of_nil _]]. }
  set (fs1 := if is_not_None (get p key) && negb (bool_decide (key ∈ fs))
              then fs ++ [key] else fs).
  destruct (IH fs1) as ([more ->] & Hnd & Hin).
  assert ((∃ more1, fs1 = fs ++ more1) ∧ (NoDup fs → NoDup fs1)
          ∧ ∀ k, k ∈ fs1 ↔ k ∈ fs ∨ (k = key ∧ get p k ≠ VNone)) as ([more1 E] & Hnd1 & Hin1).
  { unfold fs1. destruct (is_not_None (get p key)) eqn:Hv; cbn [andb].
    - destruct (bool_decide (key ∈ fs)) eqn:Hk; cbn [negb].
      + apply bool_decide_eq_true in Hk.
        split; [exists []; by rewrite app_nil_r|]. split; [done|].
        intros k. split; [by left|]. by intros [?|[-> _]].
      + apply bool_decide_eq_false in Hk.
        split; [by exists [key]|]. split.
        * intros ?. apply NoDup_app. split; [done|].
          split; [|apply NoDup_singleton].
          by intros x ? ->%list_elem_of_singleton.
        * intros k. rewrite elem_of_app, list_elem_of_singleton.
          split; [|by intros [?|[? _]]; [left|right]].
          intros [?| ->]; [by left|]. right. split; [done|].
          by destruct (get p key).
    - split; [exists []; by rewrite app_nil_r|]. split; [done|].
      intros k. split; [by left|]. intros [?|[-> Hne]]; [done|].
      by destruct (get p key). }
  split; [exists (more1 ++ more); rewrite E; by rewrite <- app_assoc|].
  split; [by intros ?%Hnd1%Hnd|].
  intros k. rewrite Hin, Hin1, elem_of_cons. clear. tauto.
Qed.

Lemma add_fields_spec p fs :
  (∃ more, add_fields p fs = fs ++ more)
  ∧ (NoDup fs → NoDup (add_fields p fs))
  ∧ ∀ k, k ∈ add_fields p fs
         ↔ k ∈ fs ∨ (k ∈ INTERFACE_ATTRIBUTES ++ PEER_ATTRIBUTES ∧ get p k ≠ VNone).
Proof. exact (add_keys_spec p (INTERFACE_ATTRIBUTES ++ PEER_ATTRIBUTES) fs). Qed.

Lemma show_fields_brief ps fs :
  let fs' := foldl (λ fs p, add_fields p fs) fs ps in
  (∃ more, fs' = fs ++ more)
  ∧ (NoDup fs → NoDup fs')
  ∧ ∀ k, k ∈ fs' ↔ k ∈ fs ∨ (k ∈ INTERFACE_ATTRIBUTES ++ PEER_ATTRIBUTES
                               ∧ ∃ p, p ∈ ps ∧ get p k ≠ VNone).
Proof.
  revert fs. induction ps as [|p ps IH]; intros fs; cbn [foldl].
  { split; [exists []; by rewrite app_nil_r|]. split; [done|].
    intros k. split; [by left|]. by intros [?|[_ (? & ?%elem_of_nil & _)]]. }
  destruct (add_fields_spec p fs) as ([more1 E] & Hnd1 & Hin1).
  destruct (IH (add_fields p fs)) as ([more ->] & Hnd & Hin).
  split; [exists (more1 ++ more); rewrite E; by rewrite <- app_assoc|].
  split; [by intros ?%Hnd1%Hnd|].
  intros k. rewrite Hin, Hin1. clear. split.
  - intros [[?|[? ?]]|[? (q & ? & ?)]]; [by left|right..].
    + split; [done|]. exists p. split; [by left|done].
    + split; [done|]. exists q. split; [by right|done].
  - intros [?|[? (q & [->|?]%elem_of_cons & ?)]]; [by left; left|left; by right|].
    right. split; [done|]. by exists q.
Qed.

Lemma attribute_keys_NoDup : NoDup ("Name" :: INTERFACE_ATTRIBUTES ++ PEER_ATTRIBUTES).
Proof. apply (bool_decide_unpack _). vm_cast_no_check I. Qed.

(** The columns: [Name] first, no column twice, and an attribute is a
    column when the listing is verbose or some listed peer has a value
    for it. *)
Lemma show_fields_spec verbose ps :
  ∃ cols, show_fields verbose ps = "Name" :: cols
          ∧ NoDup ("Name" :: cols)
          ∧ ∀ k, k ∈ cols ↔ k ∈ INTERFACE_ATTRIBUTES ++ PEER_ATTRIBUTES
                             ∧ (verbose = true ∨ ∃ p, p ∈ ps ∧ get p k ≠ VNone).
Proof.
  unfold show_fields. destruct verbose.
  - exists (INTERFACE_ATTRIBUTES ++ PEER_ATTRIBUTES). split; [done|].
    split; [apply attribute_keys_NoDup|]. intros k. split; [by auto|by intros [? _]].
  - destruct (show_fields_brief ps ["Name"]) as ([more E] & Hnd & Hin).
    exists more. split; [exact E|].
    assert (NoDup ("Name" :: more)) as Hnd'.
    { change ("Name" :: more) with (["Name"] ++ more). rewrite <- E.
      apply Hnd, NoDup_singleton. }
    split; [done|]. intros k.
    pose proof attribute_keys_NoDup as [Hname _]%NoDup_cons.
    apply NoDup_cons in Hnd' as [Hname' _].
    specialize (Hin k). rewrite E in Hin.
    change (["Name"] ++ more) with ("Name" :: more) in Hin.
    rewrite elem_of_cons, list_elem_of_singleton in Hin.
    split.
    + intros Hk. destruct (proj1 Hin (or_intror Hk)) as [->|[? ?]]; [done|].
      split; [done|by right].
    + intros [Hk [?|Hp]]; [done|].
      destruct (proj2 Hin (or_intror (conj Hk Hp))) as [->|?]; done.
Qed.

Lemma show_cell_total v : is_Some (show_cell v).
Proof. destruct v; simpl; eauto. Qed.

Lemma filter_head_out (x : string) l :
  NoDup (x :: l) → filter (λ i : string, i ≠ x) (x :: l) = l.
Proof.
  intros [Hx _]%NoDup_cons. rewrite filter_cons_False by (by intros ?).
  induction l as [|y l IH]; [done|].
  apply not_elem_of_cons in Hx as [? ?].
  rewrite filter_cons_True by done. by rewrite IH.
Qed.

Lemma show_row_spec cols n p :
  NoDup ("Name" :: cols) →
  ∃ cells, show_row ("Name" :: cols) n p = Some (n, cells)
           ∧ length cells = length cols
           ∧ ∀ j k, cols !! j = Some k → cells !! j = show_cell (get p k).
Proof.
  intros Hnd. unfold show_row. rewrite (filter_head_out _ _ Hnd).
  assert (is_Some (mapM (λ k, show_cell (get p k)) cols)) as [cells E].
  { apply mapM_is_Some, Forall_forall. intros k _. apply show_cell_total. }
  rewrite E. cbn [mbind option_bind]. exists cells. split; [done|].
  split; [by rewrite (length_mapM _ _ _ E)|].
  intros j k Hk. apply mapM_Some in E.
  destruct (Forall2_lookup_l _ _ _ _ _ E Hk) as (c & -> & Hc). by rewrite Hc.
Qed.

(** The table for a list of peers of the registry. *)
Lemma show_table_spec verbose db listed :
  Forall (λ np, dict_get np.1 db = Some np.2) listed →
  ∃ cols rows,
    show_table verbose db listed.*1 = Some ("Name" :: cols, rows)
    ∧ NoDup cols
    ∧ (∀ k, k ∈ cols ↔ k ∈ INTERFACE_ATTRIBUTES ++ PEER_ATTRIBUTES
                       ∧ (verbose = true ∨ ∃ np, np ∈ listed ∧ get np.2 k ≠ VNone))
    ∧ Forall2 (λ (np : value * gmap string value) (r : value * list string),
                 r.1 = np.1 ∧ length r.2 = length cols
                 ∧ ∀ j k, cols !! j = Some k → r.2 !! j = show_cell (get np.2 k))
              listed rows.
Proof.
  intros Hall. unfold show_table.
  assert (mapM (λ n, dict_get n db) listed.*1 = Some listed.*2) as ->.
  { apply mapM_Some. clear -Hall. induction Hall as [|[n p] l H _ IH]; by constructor. }
  cbn [mbind option_bind].
  destruct (show_fields_spec verbose listed.*2) as (cols & -> & Hnd & Hin).
  rewrite zip_fst_snd.
  assert (∃ rows, Forall2 (λ (np : value * gmap string value) (r : value * list string),
                     show_row ("Name" :: cols) np.1 np.2 = Some r
                     ∧ r.1 = np.1 ∧ length r.2 = length cols
                     ∧ ∀ j k, cols !! j = Some k → r.2 !! j = show_cell (get np.2 k))
                    listed rows) as [rows F].
  { clear -Hnd.
    induction listed as [|[n p] l [rows IH]]; [by exists []|].
    destruct (show_row_spec cols n p Hnd) as (cells & ? & ? & ?).
    exists ((n, cells) :: rows). by constructor. }
  assert (mapM (λ np : value * gmap string value, show_row ("Name" :: cols) np.1 np.2) listed
          = Some rows) as ->.
  { apply mapM_Some. eapply Forall2_impl; [exact F|]. by intros ?? [? _]. }
  cbn [mbind option_bind]. exists cols, rows. split; [done|].
  split; [by apply NoDup_cons in Hnd as [_ ?]|]. split.
  - intros k. rewrite Hin. split; intros [Hk [?|Hp]]; (split; [done|]); auto; right.
    + destruct Hp as (p & (np & -> & ?)%list_elem_of_fmap & ?). by exists np.
    + destruct Hp as (np & ? & ?). exists np.2. split; [|done].
      apply list_elem_of_fmap. by exists np.
  - eapply Forall2_impl; [exact F|]. by intros ?? (_ & ? & ? & ?).
Qed.


Lemma registry_listed db :
  NoDup db.*1 → Forall (λ np, dict_get np.1 db = Some np.2) db.
Proof.
  intros Hnd. apply Forall_forall. intros [n p] Hin. by apply dict_get_elem.
Qed.

(** Whatever is asked for, a table is made from peers of the registry. *)
Lemma showpeers_listed st Name verbose db tbl :
  read_database st = Some db →
  showpeers st Name verbose = Some (Some tbl) →
  ∃ listed, Forall (λ np, dict_get np.1 db = Some np.2) listed
            ∧ show_table verbose db listed.*1 = Some tbl.
Proof.
  intros Hr. pose proof (read_database_wf _ _ Hr) as [Hnd _]%wf_registry_spec.
  unfold showpeers. rewrite Hr. cbn [mbind option_bind].
  destruct Name as [n|].
  - destruct (dict_get (VStr n) db) as [p|] eqn:E; [|done].
    intros H. exists [(VStr n, p)]. split; [by constructor|].
    cbn [fmap list_fmap fst]. by destruct (show_table verbose db [VStr n]) as [?|]; simplify_eq/=.
  - intros H. exists db. split; [by apply registry_listed|].
    by destruct (show_table verbose db db.*1) as [?|]; simplify_eq/=.
Qed.

(** X15.  Listing all peers of a database that can be read always gives a
    table.  Its first column is [Name], followed by attribute columns
    without repetition: all of them when verbose, otherwise those for
    which some peer has a value.  There is one row per peer, in the
    order of the registry, and in it the cell under a column is the
    peer's value of that attribute, a list joined by commas and [None]
    shown as the word. *)
Theorem showpeers_all st verbose db :
  read_database st = Some db →
  ∃ cols rows,
    showpeers st None verbose = Some (Some ("Name" :: cols, rows))
    ∧ NoDup cols
    ∧ (∀ k, k ∈ cols ↔ k ∈ INTERFACE_ATTRIBUTES ++ PEER_ATTRIBUTES
                       ∧ (verbose = true ∨ ∃ np, np ∈ db ∧ get np.2 k ≠ VNone))
    ∧ length rows = length db
    ∧ ∀ i n p, db !! i = Some (n, p) →
        ∃ cells, rows !! i = Some (n, cells)
                 ∧ length cells = length cols
                 ∧ ∀ j k, cols !! j = Some k → cells !! j = show_cell (get p k).
Proof.
  intros Hr. pose proof (read_database_wf _ _ Hr) as [Hnd _]%wf_registry_spec.
  destruct (show_table_spec verbose db db (registry_listed db Hnd))
    as (cols & rows & Ht & Hcols & Hin & F).
  exists cols, rows. unfold showpeers. rewrite Hr. cbn [mbind option_bind].
  rewrite Ht. split; [done|]. split; [done|]. split; [done|].
  split; [symmetry; by eapply Forall2_length|].
  intros i n p Hi. destruct (Forall2_lookup_l _ _ _ _ _ F Hi) as ([n' cells] & Hrow & Hn & Hl & Hc).
  simpl in Hn, Hl, Hc. subst n'. by exists cells.
Qed.

Lemma showpeers_all_witness :
  read_database (Some mesh_table) = Some mesh_registry
  ∧ ∃ cols rows,
      showpeers (Some mesh_table) None false = Some (Some ("Name" :: cols, rows))
      ∧ NoDup cols
      ∧ (∀ k, k ∈ cols ↔ k ∈ INTERFACE_ATTRIBUTES ++ PEER_ATTRIBUTES
                         ∧ (false = true
                            ∨ ∃ np, np ∈ mesh_registry ∧ get np.2 k ≠ VNone))
      ∧ length rows = length mesh_registry
      ∧ ∀ i n p, mesh_registry !! i = Some (n, p) →
          ∃ cells, rows !! i = Some (n, cells)
                   ∧ length cells = length cols
                   ∧ ∀ j k, cols !! j = Some k → cells !! j = show_cell (get p k).
Proof.
  assert (read_database (Some mesh_table) = Some mesh_registry) as H by vm_refl.
  split; [exact H|]. exact (showpeers_all (Some mesh_table) false mesh_registry H).
Defined.



(** X17.  No table of a database file ever shows a public key: the column
    [PublicKey] is there only in verbose mode, and then every cell in
    it reads [None]. *)
Theorem showpeers_public_key st Name verbose db fields rows :
  read_database st = Some db →
  showpeers st Name verbose = Some (Some (fields, rows)) →
  ("PublicKey" ∈ fields ↔ verbose = true)
  ∧ ∀ j row, fields !! S j = Some "PublicKey" → row ∈ rows →
             row.2 !! j = Some "None".
Proof.
  intros Hr Hs. pose proof (read_database_wf _ _ Hr) as Hwf.
  destruct (showpeers_listed _ _ _ _ _ Hr Hs) as (listed & Hl & Ht).
  destruct (show_table_spec verbose db listed Hl) as (cols & rows' & Ht' & Hcols & Hin & F).
  rewrite Ht in Ht'. injection Ht' as -> ->.
  assert (∀ np, np ∈ listed → get np.2 "PublicKey" = VNone) as Hpub.
  { intros [n p] Hnp. rewrite Forall_forall in Hl.
    specialize (Hl _ Hnp). apply dict_get_Some in Hl.
    destruct (wf_registry_peer db n p Hwf Hl) as [_ Hp].
    apply get_outside_dom; [by apply wf_peer_dom|].
    apply (bool_decide_unpack _). vm_cast_no_check I. }
  split.
  - rewrite elem_of_cons, Hin. split.
    + intros [?|[_ [?|(np & Hnp & Hne)]]]; [done|done|].
      by destruct Hne; apply Hpub.
    + intros ->. right. split; [|by left].
      apply (bool_decide_unpack _). vm_cast_no_check I.
  - intros j row Hj [i Hi]%list_elem_of_lookup.
    destruct (Forall2_lookup_r _ _ _ _ _ F Hi) as (np & Hnp & _ & _ & Hc).
    cbn [lookup list_lookup] in Hj.
    rewrite (Hc j _ Hj), Hpub; [done|]. by eapply list_elem_of_lookup_2.
Qed.

Lemma showpeers_public_key_witness :
  ∃ fields rows,
    read_database (Some mesh_table) = Some mesh_registry
    ∧ showpeers (Some mesh_table) None true = Some (Some (fields, rows))
    ∧ ("PublicKey" ∈ fields ↔ true = true)
    ∧ ∀ j row, fields !! S j = Some "PublicKey" → row ∈ rows →
               row.2 !! j = Some "None".
Proof.
  assert (read_database (Some mesh_table) = Some mesh_registry) as H by vm_refl.
  assert (showpeers (Some mesh_table) None true
          = Some (Some (default ([], [])
                          (default None (showpeers (Some mesh_table) None true)))))
    as Hs by vm_refl.
  do 2 eexists. split; [exact H|]. split; [exact Hs|].
  exact (showpeers_public_key _ _ _ _ _ _ H Hs).
Defined.

End showpeers_facts.

(* ================================================================== *)
(** ** The files of the generator *)
(* ================================================================== *)

Section generator_files.
Implicit Types (db : list (value * gmap string value)).


Lemma optional_lines me ks optional :
  mapM (optional_line me) ks = Some optional →
  Forall2 (λ k line, Some line = (λ s, k +:+ " = " +:+ s +:+ nl) <$> str (get me k))
          (filter (λ k, get me k ≠ VNone) ks) (concat optional).
Proof.
  revert optional. induction ks as [|k ks IH]; intros optional H.
  { injection H as <-. constructor. }
  cbn [mapM] in H.
  destruct (optional_line me k) as [l|] eqn:E; [|done]. cbn [mbind option_bind] in H.
  destruct (mapM (optional_line me) ks) as [ls|]; [|done].
  cbn [mbind option_bind mret option_ret] in H. injection H as <-.
  specialize (IH ls eq_refl). unfold optional_line in E.
  rewrite filter_cons. cbn [concat].
  destruct (get me k) eqn:Ev.
  - injection E as <-. rewrite decide_False by (by intros ?). done.
  - rewrite decide_True by done. cbn in E. injection E as <-.
    constructor; [cbn beta; by rewrite Ev|done].
  - rewrite decide_True by done. cbn in E. injection E as <-.
    constructor; [cbn beta; by rewrite Ev|done].
  - rewrite decide_True by done. cbn in E. injection E as <-.
    constructor; [cbn beta; by rewrite Ev|done].
  - done.
Qed.

Lemma document_interface env db psk with_psk peer c :
  document env db psk with_psk peer = Some c →
  ∃ name me addresses priv lines,
    str peer = Some name ∧ dict_get peer db = Some me
    ∧ conf_file c = name +:+ ".conf"
    ∧ (me !! "Address" ≫= iter_strs) = Some addresses
    ∧ (me !! "PrivateKey" ≫= str) = Some priv
    ∧ conf_interface c
      = ["[Interface]" +:+ nl; "# Name: " +:+ name +:+ nl;
         "Address = " +:+ join ", " addresses +:+ nl;
         "PrivateKey = " +:+ priv +:+ nl] ++ lines
    ∧ Forall2 (λ k line,
                 Some line = (λ s, k +:+ " = " +:+ s +:+ nl) <$> str (get me k))
              (filter (λ k, get me k ≠ VNone) INTERFACE_OPTIONAL_ATTRIBUTES) lines.
Proof.
  unfold document.
  destruct (str peer) as [name|]; [|done]. cbn [mbind option_bind].
  destruct (dict_get peer db) as [me|]; [|done]. cbn [mbind option_bind].
  destruct (me !! "Address") as [a|] eqn:Ela; [|done]. cbn [mbind option_bind].
  destruct (iter_strs a) as [addresses|] eqn:Ea; [|done]. cbn [mbind option_bind].
  destruct (me !! "PrivateKey") as [k|] eqn:Elk; [|done]. cbn [mbind option_bind].
  destruct (str k) as [priv|] eqn:Ek; [|done]. cbn [mbind option_bind].
  destruct (mapM (optional_line me) _) as [optional|] eqn:Eo; [|done].
  cbn [mbind option_bind].
  destruct (mapM (peer_section env db psk with_psk peer me) _); [|done].
  cbn [mbind option_bind]. intros [= <-]. exists name, me, addresses, priv, (concat optional).
  cbn [conf_file conf_interface]. rewrite Ela, Elk. cbn [mbind option_bind].
  split; [done|]. split; [done|]. split; [done|]. split; [exact Ea|].
  split; [exact Ek|]. split; [done|]. by apply optional_lines.
Qed.



Lemma genconfig_documents env st with_psk db docs :
  read_database st = Some db →
  genconfig env st None with_psk = Some docs →
  ∃ psk, Forall2 (λ np c, document env db psk with_psk np.1 = Some c) db docs.
Proof.
  intros Hr. unfold genconfig. rewrite Hr. cbn [mbind option_bind].
  destruct (if with_psk then _ else _) as [psk|]; [|done].
  cbn [mbind option_bind]. intros H%mapM_Some. exists psk.
  by apply Forall2_fmap_l in H.
Qed.

(** X18.  [genconfig] does not look the name up before it uses it: for a name
    that is not in the database it fails (a [KeyError]) instead of
    reporting the unknown peer. *)
Theorem genconfig_unknown_peer env st n with_psk db :
  read_database st = Some db →
  dict_get (VStr n) db = None →
  genconfig env st (Some n) with_psk = None.
Proof.
  intros Hr Hn. unfold genconfig. rewrite Hr. cbn [mbind option_bind].
  destruct (if with_psk then _ else _) as [psk|]; [|done].
  cbn [mbind option_bind mapM]. unfold document.
  cbn [str mbind option_bind]. by rewrite Hn.
Qed.

Lemma genconfig_unknown_peer_witness :
  read_database (Some mesh_table) = Some mesh_registry
  ∧ dict_get (VStr "Z") mesh_registry = None
  ∧ genconfig env_run1 (Some mesh_table) (Some "Z") true = None.
Proof.
  assert (read_database (Some mesh_table) = Some mesh_registry) as H by vm_refl.
  assert (dict_get (VStr "Z") mesh_registry = None) as Hz by vm_refl.
  split; [exact H|]. split; [exact Hz|].
  exact (genconfig_unknown_peer env_run1 (Some mesh_table) "Z" true mesh_registry H Hz).
Defined.

(** X19.  The [[Interface]] section of the file of a peer: the heading, the
    name, the addresses joined by a comma and a blank, the private key
    as [str] prints it, and then one line for each optional interface
    attribute that is set, in the order of the list of those attributes,
    with the value as [str] prints it (a boolean as [True] or [False]). *)
Theorem interface_section env st with_psk db docs i P pP c :
  read_database st = Some db →
  genconfig env st None with_psk = Some docs →
  db !! i = Some (P, pP) → docs !! i = Some c →
  ∃ name addresses priv lines,
    str P = Some name
    ∧ get pP "Address" = VList addresses
    ∧ str (get pP "PrivateKey") = Some priv
    ∧ conf_interface c
      = ["[Interface]" +:+ nl; "# Name: " +:+ name +:+ nl;
         "Address = " +:+ join ", " addresses +:+ nl;
         "PrivateKey = " +:+ priv +:+ nl] ++ lines
    ∧ Forall2 (λ k line,
                 Some line = (λ s, k +:+ " = " +:+ s +:+ nl) <$> str (get pP k))
              (filter (λ k, get pP k ≠ VNone) INTERFACE_OPTIONAL_ATTRIBUTES) lines.
Proof.
  intros Hr Hg Hi Hc. pose proof (read_database_wf _ _ Hr) as Hwf.
  destruct (genconfig_documents _ _ _ _ _ Hr Hg) as [psk F].
  destruct (Forall2_lookup_l _ _ _ _ _ F Hi) as (c' & Hc' & Hdoc).
  rewrite Hc in Hc'. injection Hc' as <-. cbn [fst] in Hdoc.
  destruct (document_interface _ _ _ _ _ _ Hdoc)
    as (name & me & addresses & priv & lines & Hname & Hme & _ & Ha & Hk & Hint & Hl).
  assert (dict_get P db = Some pP) as Hget.
  { apply wf_registry_get; [done|]. by eapply list_elem_of_lookup_2. }
  rewrite Hme in Hget. injection Hget as ->.
  destruct (wf_registry_peer db P pP Hwf) as [_ Hp];
    [by eapply list_elem_of_lookup_2|].
  destruct (wf_peer_lookup pP "Address" TList Hp) as (a & Hla & Hga & Hwa).
  { apply (bool_decide_unpack _). vm_cast_no_check I. }
  destruct (wf_peer_lookup pP "PrivateKey" TStr Hp) as (k & Hlk & Hgk & _).
  { apply (bool_decide_unpack _). vm_cast_no_check I. }
  rewrite Hla in Ha. rewrite Hlk in Hk. cbn [mbind option_bind] in Ha, Hk.
  exists name, addresses, priv, lines. split; [done|].
  split; [rewrite Hga; clear -Ha Hwa; by destruct a; simplify_eq/=|]. split; [by rewrite Hgk|]. done.
Qed.

Lemma interface_section_witness :
  ∃ docs c,
    read_database (Some mesh_table) = Some mesh_registry
    ∧ genconfig env_run1 (Some mesh_table) None false = Some docs
    ∧ docs !! 1 = Some c
    ∧ ∃ name addresses priv lines,
        str (VStr "B") = Some name
        ∧ get (default ∅ (dict_get (VStr "B") mesh_registry)) "Address" = VList addresses
        ∧ str (get (default ∅ (dict_get (VStr "B") mesh_registry)) "PrivateKey")
          = Some priv
        ∧ conf_interface c
          = ["[Interface]" +:+ nl; "# Name: " +:+ name +:+ nl;
             "Address = " +:+ join ", " addresses +:+ nl;
             "PrivateKey = " +:+ priv +:+ nl] ++ lines
        ∧ Forall2 (λ k line,
                     Some line = (λ s, k +:+ " = " +:+ s +:+ nl)
                                   <$> str (get (default ∅ (dict_get (VStr "B") mesh_registry)) k))
                  (filter (λ k, get (default ∅ (dict_get (VStr "B") mesh_registry)) k ≠ VNone)
                          INTERFACE_OPTIONAL_ATTRIBUTES) lines.
Proof.
  assert (read_database (Some mesh_table) = Some mesh_registry) as H by vm_refl.
  assert (genconfig env_run1 (Some mesh_table) None false
          = Some (default [] (genconfig env_run1 (Some mesh_table) None false))) as G
    by vm_refl.
  assert (mesh_registry !! 1
          = Some (VStr "B", default ∅ (dict_get (VStr "B") mesh_registry))) as Hi
    by vm_refl.
  assert (default [] (genconfig env_run1 (Some mesh_table) None false) !! 1
          = Some (default (Build_conf "" [] [])
                    (default [] (genconfig env_run1 (Some mesh_table) None false) !! 1)))
    as Hc by vm_refl.
  do 2 eexists. split; [exact H|]. split; [exact G|]. split; [exact Hc|].
  exact (interface_section env_run1 _ false _ _ 1 _ _ _ H G Hi Hc).
Defined.




End generator_files.
